(** * wallet-monitor: the orchestrator and the metrics exporter

    A shallow embedding of [src/multi-wallet-exporter.ts], which holds two
    TypeScript modules: the [MultiWalletExporter] class (Prometheus
    counters fed by the event bus) and the [WalletManager] orchestrator
    (construction of the per-chain managers, lock routing, cross-chain
    fanout, event multiplexing).

    JavaScript effects are written as explicit state passing: a method is
    a function from the receiver's state to an outcome (a returned value
    or a thrown value) and the state it leaves behind.  A rejected promise
    of an [async] method and an exception of a plain method are both the
    outcome [Throw]; state changes made before a throw persist. *)

From Stdlib Require Import Lia.
From stdpp Require Import base list strings pretty.

Set Default Proof Using "Type".

(** ** JavaScript values, outcomes and objects *)

Module Js.

(** A thrown value: an [Error]-like object with its [name] and
    [message].  [new Error(m)] has name ["Error"]. *)
Record Exn := MkExn { exn_name : string; exn_message : string }.

Definition Error (message : string) : Exn := MkExn "Error" message.
Definition TypeError (message : string) : Exn := MkExn "TypeError" message.

(** [`${err}`], that is [Error.prototype.toString]. *)
Definition exn_to_string (e : Exn) : string :=
  if decide (exn_name e = "") then exn_message e
  else if decide (exn_message e = "") then exn_name e
  else exn_name e +:+ ": " +:+ exn_message e.

Inductive Outcome (A : Type) : Type :=
| Return (a : A)
| Throw (e : Exn).
Arguments Return {A} a.
Arguments Throw {A} e.

(** A computation over a receiver state [S]. *)
Definition Eff (S A : Type) : Type := S -> Outcome A * S.

Definition ret {S A} (a : A) : Eff S A := fun s => (Return a, s).
Definition throw {S A} (e : Exn) : Eff S A := fun s => (Throw e, s).

Definition bind {S A B} (c : Eff S A) (k : A -> Eff S B) : Eff S B :=
  fun s =>
    match c s with
    | (Return a, s') => k a s'
    | (Throw e, s') => (Throw e, s')
    end.

(** [try { body } finally { cleanup }]: the cleanup runs on both exits;
    when the cleanup itself throws, its exception replaces the outcome
    of the body. *)
Definition try_finally {S A} (body : Eff S A) (cleanup : Eff S unit) : Eff S A :=
  fun s =>
    match body s with
    | (r, s') =>
        match cleanup s' with
        | (Return _, s'') => (r, s'')
        | (Throw e, s'') => (Throw e, s'')
        end
    end.

(** [try { body } catch (err) { handler(err) }]. *)
Definition try_catch {S A} (body : Eff S A) (handler : Exn -> Eff S A) : Eff S A :=
  fun s =>
    match body s with
    | (Return a, s') => (Return a, s')
    | (Throw e, s') => handler e s'
    end.

Definition modify {S} (f : S -> S) : Eff S unit := fun s => (Return tt, f s).
Definition gets {S A} (f : S -> A) : Eff S A := fun s => (Return (f s), s).

(** [for (const x of xs) { body(x) }] *)
Fixpoint for_of {S T} (xs : list T) (body : T -> Eff S unit) : Eff S unit :=
  match xs with
  | [] => ret tt
  | x :: xs' => bind (body x) (fun _ => for_of xs' body)
  end.

(** A plain object used as a record keyed by strings: its own
    enumerable string keys in insertion order.  (Keys that look like
    array indices would be enumerated first; chain names are not.  The
    names an object inherits from [Object.prototype] are left out of
    [obj_get]: the keys looked up are of type [ChainName], which holds
    none of them.) *)
Definition obj (V : Type) : Type := list (string * V).

Fixpoint obj_get {V} (k : string) (o : obj V) : option V :=
  match o with
  | [] => None
  | (k', v) :: o' => if decide (k = k') then Some v else obj_get k o'
  end.

(** [o[k] = v]: overwrite in place, or append a new key. *)
Fixpoint obj_set {V} (k : string) (v : V) (o : obj V) : obj V :=
  match o with
  | [] => [(k, v)]
  | (k', v') :: o' =>
      if decide (k = k') then (k, v) :: o' else (k', v') :: obj_set k v o'
  end.

Definition obj_keys {V} (o : obj V) : list string := map fst o.

(** [a || b] on an optional string: [undefined] and [""] are falsy. *)
Definition or_string (a : option string) (b : string) : string :=
  match a with
  | Some s => if decide (s = "") then b else s
  | None => b
  end.

(** The string-keyed properties that [k in m] finds on any [Map]
    instance: those of [Map.prototype] and [Object.prototype].  The
    entries stored with [m.set] are not properties. *)
Definition Map_properties : list string :=
  [ "constructor"; "get"; "set"; "has"; "delete"; "clear"; "entries";
    "forEach"; "keys"; "values"; "size";
    "hasOwnProperty"; "isPrototypeOf"; "propertyIsEnumerable";
    "toLocaleString"; "toString"; "valueOf"; "__proto__";
    "__defineGetter__"; "__defineSetter__";
    "__lookupGetter__"; "__lookupSetter__" ].

(** A [Map<string, V>]: its entries in insertion order.  [Map_get] and
    [Map_set] are the methods; [in_Map] is the [in] operator. *)
Definition Map (V : Type) : Type := obj V.
Definition Map_get {V} (k : string) (m : Map V) : option V := obj_get k m.
Definition Map_set {V} (k : string) (v : V) (m : Map V) : Map V := obj_set k v m.
Definition in_Map {V} (k : string) (m : Map V) : bool :=
  bool_decide (k ∈ Map_properties).

End Js.
Import Js.

Notation "x <- c1 ;; c2" := (bind c1 (fun x => c2))
  (at level 100, c1 at next level, c2 at level 200, right associativity).
Notation "c1 ;; c2" := (bind c1 (fun _ => c2))
  (at level 100, c2 at level 200, right associativity).

(** ** MultiWalletExporter: the error counters *)

Module MultiWalletExporter.

Record PrometheusOptions := {
  gaugeName : option string;
  lastUpdateName : option string;
  errorsName : option string
}.

(** prom-client and [createExporterErrorCounter] of [./wallet-exporter]
    are not part of the sources; the exporter is modelled against any
    implementation of them.  [Registry] is the state of the registry
    with the counter objects handed to it, [Counter] a reference to such
    an object; building a counter may change the registry and may throw;
    [counter_inc] is [counter.inc()]. *)
Class PromClient := {
  Registry : Type;
  Counter : Type;
  createExporterErrorCounter : string → Registry → Outcome Counter * Registry;
  counter_inc : Counter → Registry → Registry
}.

Section Exporter.
Context `{PromClient}.

(** The fields of a [MultiWalletExporter] the 'error' listener uses. *)
Record MultiWalletExporter := {
  registry : Registry;
  errorCounters : Map Counter
}.

(** [createExporterErrorCounter(this.registry, name)] *)
Definition new_errorCounter (name : string) : Eff MultiWalletExporter Counter :=
  fun this =>
    let '(r, reg) := createExporterErrorCounter name (registry this) in
    (r, {| registry := reg; errorCounters := errorCounters this |}).

(** [this.errorCounters.set(chainName, counter)] *)
Definition set_errorCounter (chainName : string) (counter : Counter)
  : Eff MultiWalletExporter unit :=
  modify (fun this =>
    {| registry := registry this;
       errorCounters := Map_set chainName counter (errorCounters this) |}).

(** [counter.inc()] *)
Definition inc (counter : Counter) : Eff MultiWalletExporter unit :=
  modify (fun this =>
    {| registry := counter_inc counter (registry this);
       errorCounters := errorCounters this |}).

(** The listener registered with [this.on('error', ...)]. *)
Definition on_error (options : option PrometheusOptions) (chainName : string)
  : Eff MultiWalletExporter unit :=
  (this <- gets id ;;
   if negb (in_Map chainName (errorCounters this)) then
     counter <- new_errorCounter
                  (chainName +:+ "_" +:+ or_string (options ≫= errorsName) "errors") ;;
     set_errorCounter chainName counter
   else ret tt) ;;
  this <- gets id ;;
  match Map_get chainName (errorCounters this) with
  | Some counter => inc counter
  | None => throw (TypeError "Cannot read properties of undefined (reading 'inc')")
  end.

(** An exporter that has received no 'error' event yet. *)
Definition new_exporter (reg : Registry) : MultiWalletExporter :=
  {| registry := reg; errorCounters := [] |}.

(** Delivery of a sequence of 'error' events, in order. *)
Definition deliver_errors (options : option PrometheusOptions)
  (chains : list string) : Eff MultiWalletExporter unit :=
  for_of chains (on_error options).

End Exporter.

(** Two registries to run the listener on.  Both keep the counter objects
    in a list and refer to them by position; [keeping] accepts every
    counter, [refusing] rejects a second metric of the same name, as a
    prom-client registry does. *)
Record CounterObject := { counter_name : string; counter_value : nat }.

Definition bump (k : CounterObject) : CounterObject :=
  {| counter_name := counter_name k; counter_value := S (counter_value k) |}.

Definition fresh_counter (name : string) : CounterObject :=
  {| counter_name := name; counter_value := 0 |}.

Definition keeping : PromClient := {|
  Registry := list CounterObject;
  Counter := nat;
  createExporterErrorCounter name reg := (Return (length reg), reg ++ [fresh_counter name]);
  counter_inc c reg := alter bump c reg
|}.

Definition refusing : PromClient := {|
  Registry := list CounterObject;
  Counter := nat;
  createExporterErrorCounter name reg :=
    if bool_decide (name ∈ map counter_name reg)
    then (Throw (Error ("A metric with the name " +:+ name
                        +:+ " has already been registered.")), reg)
    else (Return (length reg), reg ++ [fresh_counter name]);
  counter_inc c reg := alter bump c reg
|}.

(** *** The options check of the constructor *)

(** [validatePrometheusOptions] takes its argument as [any].  A
    JavaScript value as far as the check and the lines after it look at
    it: whether it is truthy, its [typeof], and its properties when it is
    a plain object.  Numbers are the integers and [NaN]; symbols,
    bigints and arrays are left out. *)
#[warnings="-register-all"]
Inductive JsValue :=
| js_undefined
| js_null
| js_bool (b : bool)
| js_number (n : Z)
| js_NaN
| js_string (s : string)
| js_function
| js_object (props : list (string * JsValue)).

Definition truthy (v : JsValue) : bool :=
  match v with
  | js_undefined | js_null | js_NaN => false
  | js_bool b => b
  | js_number n => negb (n =? 0)%Z
  | js_string s => negb (bool_decide (s = ""))
  | js_function | js_object _ => true
  end.

Definition typeof (v : JsValue) : string :=
  match v with
  | js_undefined => "undefined"
  | js_null => "object"
  | js_bool _ => "boolean"
  | js_number _ | js_NaN => "number"
  | js_string _ => "string"
  | js_function => "function"
  | js_object _ => "object"
  end.

(** [v.k] and [v?.k] for a name [k] that no prototype defines: the own
    property of an object, [undefined] on anything else ([v.k] throws
    on [undefined] and [null]; the constructor reads with [?.]). *)
Definition js_get (k : string) (v : JsValue) : JsValue :=
  match v with
  | js_object props => default js_undefined (obj_get k props)
  | _ => js_undefined
  end.

(** [a || b] *)
Definition js_or (a b : JsValue) : JsValue := if truthy a then a else b.

Definition validatePrometheusOptions (options : JsValue) : Outcome bool :=
  if negb (truthy options) then Return true
  else if negb (bool_decide (typeof options = "object"))
  then Throw (Error "Invalid prometheus options")
  else if truthy (js_get "gaugeName" options)
          && negb (bool_decide (typeof (js_get "gaugeName" options) = "string"))
  then Throw (Error "Invalid prometheus options: gaugeName must be a string")
  else Return true.

(** The constructor after [super(...)]: the check of
    [options?.prometheus], then the values of the two name arguments,
    [gaugeName || 'wallet_monitor_balance'] for [createExporterGauge]
    and [lastUpdateName || 'last_update'] for
    [createExporterLastUpdate]. *)
Definition metric_names (prometheus : JsValue) : Outcome (JsValue * JsValue) :=
  match validatePrometheusOptions prometheus with
  | Throw e => Throw e
  | Return _ =>
      Return (js_or (js_get "gaugeName" prometheus) (js_string "wallet_monitor_balance"),
              js_or (js_get "lastUpdateName" prometheus) (js_string "last_update"))
  end.

End MultiWalletExporter.

(** ** WalletManager: the orchestrator *)

Module WalletManager.

(** *** Data declared in modules outside the sources

    The orchestrator passes these values around and never looks inside
    most of them. *)

Definition Any : Type := string.

Record WalletBalance := {
  wb_address : string;
  wb_symbol : string;
  wb_isNative : bool;
  wb_tokenAddress : option string;
  wb_rawBalance : string;
  wb_formattedBalance : string
}.

Definition WalletBalancesByAddress : Type := obj (list WalletBalance).

Record WalletConfig := {
  wc_address : option string;
  wc_tokens : list string
}.

Record WalletInterface := {
  wallet_address : string;
  wallet_driver : Any
}.

Record WalletExecuteOptions := {
  opt_address : option string;
  waitToAcquireTimeout : option nat;
  leaseTimeout : option nat
}.

Record RebalanceInstruction := {
  sourceAddress : string;
  targetAddress : string;
  amount : nat;
  token : string
}.

Record TransferReceipt := {
  receipt_id : string;
  receipt_ok : bool
}.

Record ChainInfo := { defaultNetwork : string }.

(** *** The configuration schemas *)

Record WalletRebalancingConfig := {
  rb_enabled : bool;
  rb_strategy : option string;
  rb_interval : option nat;
  rb_minBalanceThreshold : option nat;
  rb_maxGasPrice : option nat;
  rb_gasLimit : option nat
}.

Record TokenInfo := {
  tokenContract : string;
  chainId : nat;
  token_chainName : string;
  coingeckoId : string;
  token_symbol : option string
}.

Record Schedule := {
  sch_enabled : bool;
  sch_interval : option nat
}.

Record WalletPriceFeedConfig := { supportedTokens : list TokenInfo }.

Record WalletPriceFeedOptions := {
  pf_enabled : bool;
  pf_scheduled : option Schedule
}.

Record WalletBalanceConfig := {
  wbc_enabled : bool;
  wbc_scheduled : option Schedule
}.

Record WalletManagerChainConfig := {
  network : option string;
  chainConfig : option Any;
  rebalance : option WalletRebalancingConfig;
  walletBalanceConfig : option WalletBalanceConfig;
  wallets : list WalletConfig;
  priceFeedConfig : option WalletPriceFeedConfig
}.

(** [Object.entries(config)] of a [WalletManagerConfig] record. *)
Definition WalletManagerConfig : Type := obj WalletManagerChainConfig.

Record MetricsOptions := {
  metrics_enabled : bool;
  metrics_port : option nat;
  metrics_path : option string;
  metrics_registry : option Any;
  metrics_serve : option bool
}.

(** [z.infer] of [WalletManagerOptionsSchema]: in the inferred type
    [failOnInvalidChain] is a plain boolean (the schema gives it a
    default), the other fields are optional. *)
Record WalletManagerOptions := {
  logger_option : option Any;
  logLevel : option string;
  balancePollInterval : option nat;
  metrics : option MetricsOptions;
  failOnInvalidChain : bool;
  failOnInvalidTokens : option bool;
  priceFeedOptions : option WalletPriceFeedOptions
}.

(** What the schema alone does with an absent [failOnInvalidChain]
    ([z.boolean().default(true)]) and an absent [failOnInvalidTokens]. *)
Definition schema_default_failOnInvalidChain : bool := true.
Definition schema_default_failOnInvalidTokens : bool := true.

(** The object literal [chainManagerConfig] of the constructor. *)
Record ChainManagerConfig := {
  cm_network : string;
  cm_chainName : string;
  cm_rebalance : option WalletRebalancingConfig;
  cm_walletOptions : option Any;
  cm_walletBalanceConfig : option WalletBalanceConfig;
  cm_balancePollInterval : option nat;
  cm_failOnInvalidTokens : bool
}.

(** [PriceFeed = ScheduledPriceFeed | OnDemandPriceFeed], each with the
    arguments of its [new]. *)
Inductive PriceFeed :=
| ScheduledPriceFeed (supported : list TokenInfo) (options : WalletPriceFeedOptions)
| OnDemandPriceFeed (supported : list TokenInfo).

Record PrometheusExporter := {
  exporter_port : option nat;
  exporter_path : option string;
  exporter_registry : option Any
}.

(** *** The imports the orchestrator is written against

    [ChainWalletManager], [KNOWN_CHAINS] and [preparePriceFeedConfig]
    are not part of the sources; the orchestrator is modelled against
    any implementation of them.  [CWM] is the state of one
    [ChainWalletManager] object (balance table, lock registry, driver);
    a method maps it to an outcome and the state left behind.
    [cwm_getBalances] reads the in-memory table and does nothing else;
    [cwm_start] and [cwm_stop] are taken to return. *)
Class Imports := {
  KNOWN_CHAINS : obj ChainInfo;
  preparePriceFeedConfig : WalletManagerConfig -> list TokenInfo;
  CWM : Type;
  cwm_new : ChainManagerConfig -> list WalletConfig -> option PriceFeed -> Outcome CWM;
  cwm_start : CWM -> CWM;
  cwm_stop : CWM -> CWM;
  cwm_acquireLock : option WalletExecuteOptions -> CWM -> Outcome WalletInterface * CWM;
  cwm_releaseLock : string -> CWM -> Outcome unit * CWM;
  cwm_getBalances : CWM -> WalletBalancesByAddress;
  cwm_pullBalances : CWM -> Outcome WalletBalancesByAddress * CWM;
  cwm_pullBalancesAtBlockHeight : option nat -> CWM -> Outcome WalletBalancesByAddress * CWM;
  cwm_getBlockHeight : CWM -> Outcome nat * CWM
}.

(** *** Events *)

(** What a chain manager emits, with the payload its listener reads. *)
Inductive ManagerEvent :=
| ev_error (error : Exn)
| ev_balances (balances previousBalances : list WalletBalance)
| ev_rebalance_started (strategy : string) (instructions : list RebalanceInstruction)
| ev_rebalance_finished (strategy : string) (receipts : list TransferReceipt)
| ev_rebalance_error (error : Exn) (instruction : RebalanceInstruction) (strategy : string)
| ev_active_wallets_count (chainName network : string) (count : nat)
| ev_wallets_lock_period (chainName network walletAddress : string) (lockTime : nat).

Definition event_name (ev : ManagerEvent) : string :=
  match ev with
  | ev_error _ => "error"
  | ev_balances _ _ => "balances"
  | ev_rebalance_started _ _ => "rebalance-started"
  | ev_rebalance_finished _ _ => "rebalance-finished"
  | ev_rebalance_error _ _ _ => "rebalance-error"
  | ev_active_wallets_count _ _ _ => "active-wallets-count"
  | ev_wallets_lock_period _ _ _ _ => "wallets-lock-period"
  end.

(** The seven arrow functions the constructor hands to
    [chainManager.on], each with the variables it captures. *)
Inductive Listener :=
| on_error (chainName : string)
| on_balances (chainName network : string)
| on_rebalance_started
| on_rebalance_finished (chainName : string)
| on_rebalance_error (chainName : string)
| on_active_wallets_count
| on_wallets_lock_period.

(** What the orchestrator emits on its own bus:
    [emit("balances", chainName, network, balances, previousBalances)]
    and [emit("error", error, chainName)]. *)
Inductive BusEvent :=
| bus_balances (chainName network : string) (balances previousBalances : list WalletBalance)
| bus_error (error : Exn) (chainName : string).

(** *** The calls that leave the orchestrator *)

Inductive ManagerCall :=
| call_start
| call_stop
| call_acquireLock (opts : option WalletExecuteOptions)
| call_releaseLock (address : string)
| call_getBalances
| call_pullBalances
| call_pullBalancesAtBlockHeight (blockHeight : option nat)
| call_getBlockHeight.

Inductive ExporterCall :=
| startMetricsServer
| updateBalances (chainName network : string) (balances : list WalletBalance)
| updateRebalanceSuccess (chainName strategy : string) (receipts : list TransferReceipt)
| updateRebalanceFailure (chainName strategy : string)
| updateActiveWallets (chainName network : string) (count : nat)
| updateWalletsLockPeriod (chainName network walletAddress : string) (lockTime : nat)
| increaseAcquiredLocks (chainName : string)
| increaseAcquireLockFailure (chainName : string).

Inductive Action :=
| Log (level message : string)
| NewPrometheusExporter (e : PrometheusExporter)
| Exporter (c : ExporterCall)
| NewPriceFeed (pf : PriceFeed)
| NewChainWalletManager (cfg : ChainManagerConfig) (ws : list WalletConfig)
                        (priceFeed : option PriceFeed)
| Manager (chainName : string) (c : ManagerCall)
| MapConcurrent (items : nat) (concurrency : option nat)
| Emit (ev : BusEvent).

Section Orchestrator.
Context `{Imports}.

(** *** State *)

(** A [ChainWalletManager] object: the listeners registered on it
    and its own state. *)
Record ChainManager := {
  listeners : list (string * Listener);
  state : CWM
}.

(** The fields of a [WalletManager].  [emitter] holds the event
    names somebody subscribed to with [on].  [trace] is not a field
    of the class: it lists, in order, the calls the orchestrator has
    made to its logger, exporter, price feeds, chain managers, bus
    and to [mapConcurrent]. *)
Record WalletManager := {
  emitter : list string;
  managers : obj ChainManager;
  exporter : option PrometheusExporter;
  trace : list Action
}.

Definition set_emitter (e : list string) (this : WalletManager) :=
  {| emitter := e; managers := managers this;
     exporter := exporter this; trace := trace this |}.
Definition set_managers (m : obj ChainManager) (this : WalletManager) :=
  {| emitter := emitter this; managers := m;
     exporter := exporter this; trace := trace this |}.
Definition set_exporter (e : option PrometheusExporter) (this : WalletManager) :=
  {| emitter := emitter this; managers := managers this;
     exporter := e; trace := trace this |}.
Definition set_trace (t : list Action) (this : WalletManager) :=
  {| emitter := emitter this; managers := managers this;
     exporter := exporter this; trace := t |}.

Definition M (A : Type) : Type := Eff WalletManager A.

Definition record (a : Action) : M unit :=
  modify (fun this => set_trace (trace this ++ [a]) this).

Definition log (level message : string) : M unit :=
  record (Log level message).

(** [this.exporter?.method(...)]; the methods of [PrometheusExporter],
    which is not part of the sources, are taken to return. *)
Definition exporter_call (c : ExporterCall) : M unit :=
  this <- gets id ;;
  match exporter this with
  | Some _ => record (Exporter c)
  | None => ret tt
  end.

(** [manager.method(...)] on the manager stored under [chainName].
    The call is recorded and the manager's new state is stored back
    under the same key (the object is shared by reference).  Reading
    a method off a missing manager is a [TypeError]. *)
Definition invoke {R} (chainName : string) (c : ManagerCall)
  (method : CWM -> Outcome R * CWM) : M R :=
  fun this =>
    match obj_get chainName (managers this) with
    | None => (Throw (TypeError "Cannot read properties of undefined"), this)
    | Some m =>
        let '(r, s') := method (state m) in
        (r, set_managers
              (obj_set chainName {| listeners := listeners m; state := s' |}
                       (managers this))
              (set_trace (trace this ++ [Manager chainName c]) this))
    end.

(** [this.emitter.emit(...)]: the subscribers run, and are taken to
    return; an 'error' event nobody subscribed to is thrown by the
    emitter. *)
Definition emit (ev : BusEvent) : M unit :=
  record (Emit ev) ;;
  this <- gets id ;;
  match ev with
  | bus_error err _ =>
      if bool_decide ("error" ∈ emitter this) then ret tt else throw err
  | bus_balances _ _ _ _ => ret tt
  end.

(** The mappers run one after the other in the order of the items,
    until one throws; the variable the mappers close over and assign
    ([result], [blockHeightPerChain], [balances]) is passed along. *)
Fixpoint run_mappers {T A} (items : list T) (mapper : T -> A -> M A)
  (captured : A) : M A :=
  match items with
  | [] => ret captured
  | x :: rest => a <- mapper x captured ;; run_mappers rest mapper a
  end.

(** Modelled from the spec: [mapConcurrent(items, mapper, concurrency)]
    of [./utils] is missing.  It runs the mapper on every item with a
    bound on the mappers in flight and fails the whole call on the
    first error.  The model records the call with the bound it is given
    ([None] when the argument is left out) and runs the mappers in the
    order of the items, which is one of the schedules the bound allows. *)
Definition mapConcurrent {T A} (items : list T) (mapper : T -> A -> M A)
  (concurrency : option nat) (captured : A) : M A :=
  record (MapConcurrent (length items) concurrency) ;;
  run_mappers items mapper captured.

(** Modelled from the spec: [isChain] of [./wallets] is missing; a
    chain name is valid when it belongs to the known set. *)
Definition isChain (chainName : string) : bool :=
  bool_decide (is_Some (obj_get chainName KNOWN_CHAINS)).

(** [KNOWN_CHAINS[chainName]!.defaultNetwork] *)
Definition getDefaultNetwork (chainName : string) : M string :=
  match obj_get chainName KNOWN_CHAINS with
  | Some info => ret (defaultNetwork info)
  | None => throw (TypeError "Cannot read properties of undefined (reading 'defaultNetwork')")
  end.

(** *** Construction *)

Definition fresh : WalletManager :=
  {| emitter := []; managers := []; exporter := None; trace := [] |}.

(** The listeners registered on a new chain manager, in the order of
    the [chainManager.on] calls. *)
Definition wiring (chainName network : string) : list (string * Listener) :=
  [ ("error", on_error chainName);
    ("balances", on_balances chainName network);
    ("rebalance-started", on_rebalance_started);
    ("rebalance-finished", on_rebalance_finished chainName);
    ("rebalance-error", on_rebalance_error chainName);
    ("active-wallets-count", on_active_wallets_count);
    ("wallets-lock-period", on_wallets_lock_period) ].

Definition new_PrometheusExporter (m : MetricsOptions) : M unit :=
  let e := {| exporter_port := metrics_port m;
              exporter_path := metrics_path m;
              exporter_registry := metrics_registry m |} in
  record (NewPrometheusExporter e) ;;
  modify (set_exporter (Some e)).

(** [new ScheduledPriceFeed(...)] or [new OnDemandPriceFeed(...)]; both
    are taken to return. *)
Definition new_PriceFeed (pf : PriceFeed) : M (option PriceFeed) :=
  record (NewPriceFeed pf) ;; ret (Some pf).

Definition new_ChainWalletManager (cfg : ChainManagerConfig)
  (ws : list WalletConfig) (priceFeed : option PriceFeed) : M CWM :=
  record (NewChainWalletManager cfg ws priceFeed) ;;
  match cwm_new cfg ws priceFeed with
  | Return m => ret m
  | Throw e => throw e
  end.

(** [options?.failOnInvalidChain]: [undefined] without options. *)
Definition options_failOnInvalidChain (options : option WalletManagerOptions) : bool :=
  match options with
  | Some o => failOnInvalidChain o
  | None => false
  end.

(** [options?.failOnInvalidTokens ?? true] *)
Definition options_failOnInvalidTokens (options : option WalletManagerOptions) : bool :=
  default true (options ≫= failOnInvalidTokens).

(** [options?.priceFeedOptions?.enabled] *)
Definition isPriceFeedEnabled (options : option WalletManagerOptions) : bool :=
  match options ≫= priceFeedOptions with
  | Some p => pf_enabled p
  | None => false
  end.

(** The [if (isPriceFeedEnabled) { ... }] block: the value left in
    [priceFeedInstance]. *)
Definition build_priceFeed (config : WalletManagerConfig)
  (options : option WalletManagerOptions) : M (option PriceFeed) :=
  if isPriceFeedEnabled options then
    let allSupportedTokens := preparePriceFeedConfig config in
    match options ≫= priceFeedOptions with
    | Some p =>
        if match pf_scheduled p with
           | Some s => sch_enabled s
           | None => false
           end
        then new_PriceFeed (ScheduledPriceFeed allSupportedTokens p)
        else new_PriceFeed (OnDemandPriceFeed allSupportedTokens)
    | None => new_PriceFeed (OnDemandPriceFeed allSupportedTokens)
    end
  else ret None.

(** The [if (options?.metrics?.enabled) { ... }] block. *)
Definition build_exporter (options : option WalletManagerOptions) : M unit :=
  match options ≫= metrics with
  | Some m =>
      if metrics_enabled m then
        new_PrometheusExporter m ;;
        match metrics_serve m with
        | Some true =>
            log "info" "Starting metrics server." ;;
            exporter_call startMetricsServer
        | _ => ret tt
        end
      else ret tt
  | None => ret tt
  end.

(** One turn of [for (const [chainName, chainConfig] of
    Object.entries(config))]. *)
Definition construct_chain (options : option WalletManagerOptions)
  (priceFeedInstance : option PriceFeed)
  (entry : string * WalletManagerChainConfig) : M unit :=
  let '(chainName, chainCfg) := entry in
  if negb (isChain chainName) then
    if options_failOnInvalidChain options then
      throw (Error ("Invalid chain name: " +:+ chainName))
    else
      log "warn" ("Invalid chain name: " +:+ chainName)
  else
    network <- match network chainCfg with
               | Some n => if decide (n = "") then getDefaultNetwork chainName
                           else ret n
               | None => getDefaultNetwork chainName
               end ;;
    let chainManagerConfig :=
      {| cm_network := network;
         cm_chainName := chainName;
         cm_rebalance := rebalance chainCfg;
         cm_walletOptions := chainConfig chainCfg;
         cm_walletBalanceConfig := walletBalanceConfig chainCfg;
         cm_balancePollInterval := options ≫= balancePollInterval;
         cm_failOnInvalidTokens := options_failOnInvalidTokens options |} in
    chainManager <- new_ChainWalletManager chainManagerConfig
                      (wallets chainCfg) priceFeedInstance ;;
    modify (fun this =>
      set_managers
        (obj_set chainName
           {| listeners := wiring chainName network; state := chainManager |}
           (managers this)) this) ;;
    invoke chainName call_start (fun s => (Return tt, cwm_start s)).

(** [new WalletManager(config, options)], run on the fresh object.
    When it throws, the state is what had been built until then. *)
Definition constructor (config : WalletManagerConfig)
  (options : option WalletManagerOptions) : M unit :=
  build_exporter options ;;
  priceFeedInstance <- build_priceFeed config options ;;
  for_of config (construct_chain options priceFeedInstance).

Definition new_WalletManager (config : WalletManagerConfig)
  (options : option WalletManagerOptions) : Outcome unit * WalletManager :=
  constructor config options fresh.

(** *** Event wiring *)

(** The body of each listener, on the event it is registered for. *)
Definition listener_body (l : Listener) (ev : ManagerEvent) : M unit :=
  match l, ev with
  | on_error chainName, ev_error error =>
      log "error" "Error in chain manager: ${error}" ;;
      emit (bus_error error chainName)
  | on_balances chainName network, ev_balances balances previousBalances =>
      log "verbose" ("Balances updated for " +:+ chainName +:+ " (" +:+ network +:+ ")") ;;
      exporter_call (updateBalances chainName network balances) ;;
      emit (bus_balances chainName network balances previousBalances)
  | on_rebalance_started, ev_rebalance_started strategy instructions =>
      log "info" ("Rebalance Started. Instructions to execute: "
                  +:+ pretty (length instructions))
  | on_rebalance_finished chainName, ev_rebalance_finished strategy receipts =>
      log "info" ("Rebalance Finished. Executed transactions: "
                  +:+ pretty (length receipts) +:+ "}") ;;
      exporter_call (updateRebalanceSuccess chainName strategy receipts)
  | on_rebalance_error chainName, ev_rebalance_error error _ strategy =>
      log "error" ("Rebalance Error: " +:+ exn_to_string error) ;;
      exporter_call (updateRebalanceFailure chainName strategy)
  | on_active_wallets_count, ev_active_wallets_count chainName network count =>
      exporter_call (updateActiveWallets chainName network count)
  | on_wallets_lock_period,
    ev_wallets_lock_period chainName network walletAddress lockTime =>
      exporter_call (updateWalletsLockPeriod chainName network walletAddress lockTime)
  | _, _ => ret tt
  end.

(** The chain manager stored under [chainName] emits [ev]: the
    listeners registered for that event name run in registration
    order. *)
Definition manager_emits (chainName : string) (ev : ManagerEvent) : M unit :=
  this <- gets id ;;
  match obj_get chainName (managers this) with
  | Some m =>
      for_of (filter (fun nl => nl.1 = event_name ev) (listeners m))
             (fun nl => listener_body nl.2 ev)
  | None => ret tt
  end.

(** *** Methods *)

Definition stop : M unit :=
  this <- gets id ;;
  for_of (obj_keys (managers this))
         (fun chainName => invoke chainName call_stop (fun s => (Return tt, cwm_stop s))).

Definition on (event : string) : M unit :=
  modify (fun this => set_emitter (emitter this ++ [event]) this).

Definition acquireLock (chainName : string) (opts : option WalletExecuteOptions)
  : M WalletInterface :=
  this <- gets id ;;
  match obj_get chainName (managers this) with
  | None => throw (Error ("No wallets configured for chain: " +:+ chainName))
  | Some _ =>
      try_catch
        (wallet <- invoke chainName (call_acquireLock opts) (cwm_acquireLock opts) ;;
         exporter_call (increaseAcquiredLocks chainName) ;;
         ret wallet)
        (fun error =>
           exporter_call (increaseAcquireLockFailure chainName) ;;
           throw error)
  end.

Definition releaseLock (chainName address : string) : M unit :=
  this <- gets id ;;
  match obj_get chainName (managers this) with
  | None => throw (Error ("No wallets configured for chain: " +:+ chainName))
  | Some _ => invoke chainName (call_releaseLock address) (cwm_releaseLock address)
  end.

(** A [WithWalletExecutor]: whatever the caller does with the wallet,
    the orchestrator being in its reach. *)
Definition WithWalletExecutor : Type := WalletInterface -> M unit.

Definition withWallet (chainName : string) (fn : WithWalletExecutor)
  (opts : option WalletExecuteOptions) : M unit :=
  wallet <- acquireLock chainName opts ;;
  try_finally (fn wallet) (releaseLock chainName (wallet_address wallet)).

(** [Object.entries(this.managers)] is modelled by the keys: the
    manager of an entry is the object stored under its key, and
    [invoke] reaches it there. *)
Definition mapToChains {T} (method : string -> M T) : M (obj T) :=
  this <- gets id ;;
  mapConcurrent (obj_keys (managers this))
    (fun chainName result =>
       r <- method chainName ;;
       ret (obj_set chainName r result))
    None [].

Definition getAllBalances : M (obj WalletBalancesByAddress) :=
  mapToChains (fun chainName =>
    invoke chainName call_getBalances (fun s => (Return (cwm_getBalances s), s))).

Definition pullBalances : M (obj WalletBalancesByAddress) :=
  mapToChains (fun chainName =>
    invoke chainName call_pullBalances cwm_pullBalances).

Definition getBlockHeight (chainName : string) : M nat :=
  this <- gets id ;;
  match obj_get chainName (managers this) with
  | None => throw (Error ("No wallets configured for chain: " +:+ chainName))
  | Some _ => invoke chainName call_getBlockHeight cwm_getBlockHeight
  end.

Definition validateBlockHeightByChain (blockHeightByChain : obj nat) : M unit :=
  for_of (obj_keys blockHeightByChain) (fun chain =>
    this <- gets id ;;
    match obj_get chain (managers this) with
    | None => throw (Error ("No wallets configured for chain: " +:+ chain))
    | Some _ => ret tt
    end).

Definition getBlockHeightForAllSupportedChains : M (obj nat) :=
  this <- gets id ;;
  let requiredConcurrency := length (obj_keys (managers this)) in
  mapConcurrent (obj_keys (managers this))
    (fun chainName blockHeightPerChain =>
       try_catch
         (blockHeight <- invoke chainName call_getBlockHeight cwm_getBlockHeight ;;
          ret (obj_set chainName blockHeight blockHeightPerChain))
         (fun err =>
            throw (Error ("No block height found for chain: " +:+ chainName
                          +:+ ", error: " +:+ exn_to_string err))))
    (Some requiredConcurrency) [].

Definition pullBalancesAtBlockHeight (blockHeightByChain : option (obj nat))
  : M (obj WalletBalancesByAddress) :=
  match blockHeightByChain with
  | Some heights => validateBlockHeightByChain heights
  | None => ret tt
  end ;;
  blockHeightPerChain <- match blockHeightByChain with
                         | Some heights => ret heights
                         | None => getBlockHeightForAllSupportedChains
                         end ;;
  this <- gets id ;;
  mapConcurrent (obj_keys (managers this))
    (fun chainName balances =>
       let blockHeight := obj_get chainName blockHeightPerChain in
       balancesByChain <- invoke chainName (call_pullBalancesAtBlockHeight blockHeight)
                            (cwm_pullBalancesAtBlockHeight blockHeight) ;;
       ret (obj_set chainName balancesByChain balances))
    None [].

Definition getChainBalances (chainName : string) : M WalletBalancesByAddress :=
  this <- gets id ;;
  match obj_get chainName (managers this) with
  | None => throw (Error ("No wallets configured for chain: " +:+ chainName))
  | Some _ => invoke chainName call_getBalances (fun s => (Return (cwm_getBalances s), s))
  end.

(** *** Reading the state and the trace *)

(** The in-memory snapshot of every manager. *)
Definition snapshots (this : WalletManager) : obj WalletBalancesByAddress :=
  map (fun km => (km.1, cwm_getBalances (state km.2))) (managers this).

(** The price feeds built so far. *)
Definition priceFeeds_built (t : list Action) : list PriceFeed :=
  omap (fun a => match a with NewPriceFeed pf => Some pf | _ => None end) t.

(** The price feed handed to each chain manager built so far. *)
Definition priceFeeds_passed (t : list Action) : list (option PriceFeed) :=
  omap (fun a => match a with
                 | NewChainWalletManager _ _ pf => Some pf
                 | _ => None
                 end) t.

(** The concurrency argument of each [mapConcurrent] call so far. *)
Definition concurrency_bounds (t : list Action) : list (option nat) :=
  omap (fun a => match a with
                 | MapConcurrent _ c => Some c
                 | _ => None
                 end) t.

(** The events put on the orchestrator's bus so far. *)
Definition emitted (t : list Action) : list BusEvent :=
  omap (fun a => match a with Emit ev => Some ev | _ => None end) t.

(** Between two states, the trace grew by actions that all satisfy [P]. *)
Definition only_adds (P : Action → Prop) (s s' : WalletManager) : Prop :=
  ∃ added, trace s' = trace s ++ added ∧ Forall P added.

(** The block height a manager's driver answers with, in its
    current state. *)
Definition height_of (m : ChainManager) : Outcome nat :=
  (cwm_getBlockHeight (state m)).1.

(** The error [getBlockHeightForAllSupportedChains] builds around a
    driver error. *)
Definition BlockHeightUnavailable (chainName : string) (err : Exn) : Exn :=
  Error ("No block height found for chain: " +:+ chainName
         +:+ ", error: " +:+ exn_to_string err).

(** [chainConfig.network || getDefaultNetwork(chainName)], for a
    chain of the known set. *)
Definition network_of (chainName : string) (chainCfg : WalletManagerChainConfig)
  : string :=
  or_string (network chainCfg)
            (from_option defaultNetwork "" (obj_get chainName KNOWN_CHAINS)).

(** The [chainManagerConfig] literal built for an entry. *)
Definition chainManagerConfig_of (options : option WalletManagerOptions)
  (chainName : string) (chainCfg : WalletManagerChainConfig) : ChainManagerConfig :=
  {| cm_network := network_of chainName chainCfg;
     cm_chainName := chainName;
     cm_rebalance := rebalance chainCfg;
     cm_walletOptions := chainConfig chainCfg;
     cm_walletBalanceConfig := walletBalanceConfig chainCfg;
     cm_balancePollInterval := options ≫= balancePollInterval;
     cm_failOnInvalidTokens := options_failOnInvalidTokens options |}.

(** A manager stored under a chain name was built from an entry of
    the configuration for that name, with the given price feed, was
    wired with the seven listeners and was started. *)
Definition wired (config : WalletManagerConfig) (options : option WalletManagerOptions)
  (priceFeed : option PriceFeed) (km : string * ChainManager) : Prop :=
  ∃ chainCfg m0,
    (km.1, chainCfg) ∈ config ∧ isChain km.1 = true ∧
    listeners km.2 = wiring km.1 (network_of km.1 chainCfg) ∧
    cwm_new (chainManagerConfig_of options km.1 chainCfg) (wallets chainCfg) priceFeed
      = Return m0 ∧
    state km.2 = cwm_start m0.

(** The price feed the options select, in the words of the spec:
    none when [priceFeedOptions.enabled] is false or absent, a
    scheduled one when [scheduled.enabled] is set, an on-demand one
    otherwise. *)
Definition selected_priceFeed (config : WalletManagerConfig)
  (options : option WalletManagerOptions) : option PriceFeed :=
  match options ≫= priceFeedOptions with
  | None => None
  | Some p =>
      if negb (pf_enabled p) then None
      else if from_option sch_enabled false (pf_scheduled p)
           then Some (ScheduledPriceFeed (preparePriceFeedConfig config) p)
           else Some (OnDemandPriceFeed (preparePriceFeedConfig config))
  end.

(** What the constructor keeps true of the object under
    construction, for the price feed [priceFeed] held in
    [priceFeedInstance]. *)
Definition under_construction (config : WalletManagerConfig)
  (options : option WalletManagerOptions) (priceFeed : option PriceFeed)
  (this : WalletManager) : Prop :=
  Forall (wired config options priceFeed) (managers this) ∧
  NoDup (obj_keys (managers this)) ∧
  (∀ c, c ∈ obj_keys (managers this) → Manager c call_start ∈ trace this) ∧
  Forall (fun passed => passed = priceFeed) (priceFeeds_passed (trace this)) ∧
  priceFeeds_built (trace this) = option_list priceFeed.

(** *** More readings of the state and the trace *)

(** The error with which one entry of the configuration stops the
    constructor, if it does: an unknown chain name under
    [failOnInvalidChain], or what [new ChainWalletManager] throws. *)
Definition entry_error (options : option WalletManagerOptions)
  (priceFeed : option PriceFeed) (entry : string * WalletManagerChainConfig)
  : option Exn :=
  if isChain entry.1 then
    match cwm_new (chainManagerConfig_of options entry.1 entry.2)
                  (wallets entry.2) priceFeed with
    | Return _ => None
    | Throw e => Some e
    end
  else if options_failOnInvalidChain options
       then Some (Error ("Invalid chain name: " +:+ entry.1))
       else None.

(** The chain names for which [new ChainWalletManager] was called. *)
Definition chains_constructed (t : list Action) : list string :=
  omap (fun a => match a with
                 | NewChainWalletManager cfg _ _ => Some (cm_chainName cfg)
                 | _ => None
                 end) t.

(** The chain managers that were started or stopped, in order. *)
Definition chains_started (t : list Action) : list string :=
  omap (fun a => match a with
                 | Manager chainName call_start => Some chainName
                 | _ => None
                 end) t.

(** The warnings logged so far. *)
Definition warnings (t : list Action) : list string :=
  omap (fun a => match a with
                 | Log level message =>
                     if decide (level = "warn") then Some message else None
                 | _ => None
                 end) t.

(** The calls made to the exporter so far. *)
Definition exporter_calls (t : list Action) : list ExporterCall :=
  omap (fun a => match a with Exporter c => Some c | _ => None end) t.

(** The calls made to chain managers so far. *)
Definition manager_calls (t : list Action) : list (string * ManagerCall) :=
  omap (fun a => match a with
                 | Manager chainName c => Some (chainName, c)
                 | _ => None
                 end) t.

(** The exporter the [metrics] options ask for. *)
Definition selected_exporter (options : option WalletManagerOptions)
  : option PrometheusExporter :=
  match options ≫= metrics with
  | Some m =>
      if metrics_enabled m
      then Some {| exporter_port := metrics_port m;
                   exporter_path := metrics_path m;
                   exporter_registry := metrics_registry m |}
      else None
  | None => None
  end.

(** A manager after one of its methods ran. *)
Definition after_method {R} (method : CWM → Outcome R * CWM) (m : ChainManager)
  : ChainManager :=
  {| listeners := listeners m; state := (method (state m)).2 |}.



End Orchestrator.

End WalletManager.

(** ** A simulated chain manager

    The theorems on the orchestrator hold for every implementation of
    its imports.  This module gives one, to run the orchestrator on
    concrete configurations. *)

Module Simulation.
Import WalletManager.

Record Chain := {
  sim_chainName : string;
  sim_wallets : list string;
  sim_held : list string;
  sim_table : WalletBalancesByAddress;
  sim_running : bool
}.

Definition with_held (h : list string) (c : Chain) : Chain :=
  {| sim_chainName := sim_chainName c; sim_wallets := sim_wallets c;
     sim_held := h; sim_table := sim_table c; sim_running := sim_running c |}.
Definition with_table (t : WalletBalancesByAddress) (c : Chain) : Chain :=
  {| sim_chainName := sim_chainName c; sim_wallets := sim_wallets c;
     sim_held := sim_held c; sim_table := t; sim_running := sim_running c |}.
Definition with_running (b : bool) (c : Chain) : Chain :=
  {| sim_chainName := sim_chainName c; sim_wallets := sim_wallets c;
     sim_held := sim_held c; sim_table := sim_table c; sim_running := b |}.

Definition native_balance (address : string) : WalletBalance :=
  {| wb_address := address; wb_symbol := "NATIVE"; wb_isNative := true;
     wb_tokenAddress := None; wb_rawBalance := "1500000000000000000";
     wb_formattedBalance := "1.5" |}.

Definition driver_balances (c : Chain) : WalletBalancesByAddress :=
  map (fun a => (a, [native_balance a])) (sim_wallets c).

Definition sim_new (cfg : ChainManagerConfig) (ws : list WalletConfig)
  (priceFeed : option PriceFeed) : Outcome Chain :=
  Return {| sim_chainName := cm_chainName cfg;
            sim_wallets := map (fun w => default "" (wc_address w)) ws;
            sim_held := []; sim_table := []; sim_running := false |}.

Definition free_address (c : Chain) (wanted : option string) : option string :=
  match wanted with
  | Some a =>
      if bool_decide (a ∈ sim_wallets c) && negb (bool_decide (a ∈ sim_held c))
      then Some a else None
  | None => head (filter (fun a => a ∉ sim_held c) (sim_wallets c))
  end.

Definition sim_acquireLock (opts : option WalletExecuteOptions) (c : Chain)
  : Outcome WalletInterface * Chain :=
  match free_address c (opts ≫= opt_address) with
  | Some a => (Return {| wallet_address := a; wallet_driver := sim_chainName c |},
               with_held (a :: sim_held c) c)
  | None => (Throw (MkExn "AcquireTimeout" "no wallet became free"), c)
  end.

Definition sim_releaseLock (address : string) (c : Chain) : Outcome unit * Chain :=
  if bool_decide (address ∈ sim_held c)
  then (Return tt, with_held (filter (fun a => a ≠ address) (sim_held c)) c)
  else (Throw (MkExn "NotHeld" address), c).

Definition sim_getBlockHeight (rpc : string -> option nat) (c : Chain)
  : Outcome nat * Chain :=
  match rpc (sim_chainName c) with
  | Some h => (Return h, c)
  | None => (Throw (Error "connection refused"), c)
  end.

(** Modelled from the spec: [ChainWalletManager] of
    [./chain-wallet-manager], [KNOWN_CHAINS] of [./wallets] and
    [preparePriceFeedConfig] of [./price-assistant/helper] are missing.
    The manager follows the spec's Chain Wallet Manager and Lock Registry
    for one caller at a time: an address is free or held; acquiring a
    held address fails once the wait is over ([AcquireTimeout]);
    releasing an address that is not held fails ([NotHeld]);
    [getBalances] reads the table; [pullBalances] replaces the table by
    what the driver reports; [pullBalancesAtBlockHeight] leaves the table
    alone.  [rpc] gives the block height each chain's endpoint answers
    with, if it answers.  The price-feed tokens are the union of the
    chains' [priceFeedConfig.supportedTokens]. *)
#[export] Instance simulated (rpc : string -> option nat) : Imports := {|
  KNOWN_CHAINS := [ ("ethereum", {| defaultNetwork := "mainnet" |});
                    ("solana", {| defaultNetwork := "mainnet-beta" |});
                    ("sui", {| defaultNetwork := "mainnet" |}) ];
  preparePriceFeedConfig config :=
    flat_map (fun kc => from_option supportedTokens [] (priceFeedConfig kc.2)) config;
  CWM := Chain;
  cwm_new := sim_new;
  cwm_start := with_running true;
  cwm_stop := with_running false;
  cwm_acquireLock := sim_acquireLock;
  cwm_releaseLock := sim_releaseLock;
  cwm_getBalances := sim_table;
  cwm_pullBalances c := (Return (driver_balances c), with_table (driver_balances c) c);
  cwm_pullBalancesAtBlockHeight _ c := (Return (driver_balances c), c);
  cwm_getBlockHeight := sim_getBlockHeight rpc
|}.

(** Every endpoint up, at height 100 plus the length of the chain's name. *)
Definition all_up (chainName : string) : option nat :=
  Some (100 + String.length chainName).

(** The endpoint of one chain is down. *)
Definition down (broken : string) (chainName : string) : option nat :=
  if decide (chainName = broken) then None else all_up chainName.

Definition one_wallet (address : string) : WalletManagerChainConfig :=
  {| network := None; chainConfig := None; rebalance := None;
     walletBalanceConfig := None;
     wallets := [ {| wc_address := Some address; wc_tokens := [] |} ];
     priceFeedConfig := None |}.

Definition two_chains : WalletManagerConfig :=
  [ ("ethereum", one_wallet "0xA"); ("solana", one_wallet "So1") ].

Definition with_unknown_chain : WalletManagerConfig :=
  [ ("ethereum", one_wallet "0xA"); ("not-a-chain", one_wallet "0xB") ].

Definition plain_options (fail : bool) : WalletManagerOptions :=
  {| logger_option := None; logLevel := None; balancePollInterval := None;
     metrics := None; failOnInvalidChain := fail; failOnInvalidTokens := None;
     priceFeedOptions := None |}.

Definition priceFeed_options (enabled : bool) (scheduled : option bool)
  : WalletManagerOptions :=
  {| logger_option := None; logLevel := None; balancePollInterval := None;
     metrics := None; failOnInvalidChain := true; failOnInvalidTokens := None;
     priceFeedOptions :=
       Some {| pf_enabled := enabled;
               pf_scheduled :=
                 (fun b => {| sch_enabled := b; sch_interval := None |}) <$> scheduled |} |}.

(** The orchestrator built for two chains without options, every
    endpoint up. *)
Definition fleet : WalletManager (H := simulated all_up) :=
  (new_WalletManager (H := simulated all_up) two_chains None).2.

(** The same, with the endpoint of solana down. *)
Definition fleet_solana_down : WalletManager (H := simulated (down "solana")) :=
  (new_WalletManager (H := simulated (down "solana")) two_chains None).2.

(** An executor that throws. *)
Definition failing_executor : WithWalletExecutor (H := simulated all_up) :=
  fun wallet => throw (MkExn "X" "executor failed").

Definition wallet_0xA : WalletInterface :=
  {| wallet_address := "0xA"; wallet_driver := "ethereum" |}.

(** A manager as the constructor leaves it: wired and started. *)
Definition running_chain (chainName address : string) : Chain :=
  {| sim_chainName := chainName; sim_wallets := [address];
     sim_held := []; sim_table := []; sim_running := true |}.

Definition started_manager (chainName network address : string)
  : ChainManager (H := simulated all_up) :=
  @Build_ChainManager (simulated all_up) (wiring chainName network)
    (running_chain chainName address).

(** The ethereum manager of [fleet] while [0xA] is held. *)
Definition held_manager : ChainManager (H := simulated all_up) :=
  @Build_ChainManager (simulated all_up) (wiring "ethereum" "mainnet")
    (with_held ["0xA"] (running_chain "ethereum" "0xA")).

(** An executor that gives its wallet back itself and then throws. *)
Definition self_releasing_executor : WithWalletExecutor (H := simulated all_up) :=
  fun wallet =>
    releaseLock "ethereum" (wallet_address wallet) ;;
    throw (MkExn "X" "executor failed").

(** Options that switch the metrics on, with or without the server. *)
Definition metrics_options (serve : bool) : WalletManagerOptions :=
  {| logger_option := None; logLevel := None; balancePollInterval := None;
     metrics := Some {| metrics_enabled := true; metrics_port := Some 3001;
                        metrics_path := None; metrics_registry := None;
                        metrics_serve := Some serve |};
     failOnInvalidChain := true; failOnInvalidTokens := None;
     priceFeedOptions := None |}.

(** The orchestrator built for two chains with the metrics served. *)
Definition fleet_with_metrics : WalletManager (H := simulated all_up) :=
  (new_WalletManager (H := simulated all_up) two_chains (Some (metrics_options true))).2.

End Simulation.

(** * Properties *)

(** ** Objects as key lists *)

Section ObjectLemmas.
Context {V : Type}.
Implicit Types (o : obj V) (k : string) (v : V).

Lemma obj_get_set_eq k v o : obj_get k (obj_set k v o) = Some v.
Proof.
  induction o as [|[k' v'] o IH]; simpl.
  - by rewrite decide_True.
  - destruct (decide (k = k')) as [->|Hne]; simpl.
    + by rewrite decide_True.
    + by rewrite decide_False.
Qed.

Lemma obj_get_set_ne k k' v o :
  k ≠ k' → obj_get k' (obj_set k v o) = obj_get k' o.
Proof.
  intros Hne. induction o as [|[k0 v0] o IH]; simpl.
  - by rewrite decide_False.
  - destruct (decide (k = k0)) as [->|Hk]; simpl.
    + by rewrite !decide_False.
    + by rewrite IH.
Qed.

Lemma obj_get_is_Some k o : is_Some (obj_get k o) ↔ k ∈ obj_keys o.
Proof.
  unfold obj_keys. induction o as [|[k' v'] o IH]; simpl.
  - split; [intros [? ?]; done | by intros ?%elem_of_nil].
  - destruct (decide (k = k')) as [->|Hne].
    + split; [intros _; left | by eauto].
    + rewrite IH. split; [by right | by intros [?|?]%elem_of_cons].
Qed.

Lemma obj_get_None k o : obj_get k o = None ↔ k ∉ obj_keys o.
Proof. rewrite <- obj_get_is_Some, eq_None_not_Some. done. Qed.

Lemma obj_get_elem_of k v o : obj_get k o = Some v → (k, v) ∈ o.
Proof.
  induction o as [|[k' v'] o IH]; simpl; [done|].
  destruct (decide (k = k')) as [->|Hne].
  - intros [= ->]. left.
  - intros ?. right. auto.
Qed.

Lemma obj_keys_set_present k v o :
  k ∈ obj_keys o → obj_keys (obj_set k v o) = obj_keys o.
Proof.
  unfold obj_keys. induction o as [|[k' v'] o IH]; simpl.
  - by intros ?%elem_of_nil.
  - destruct (decide (k = k')) as [->|Hne]; simpl; [done|].
    intros [?|Hin]%elem_of_cons; [done|]. by rewrite IH.
Qed.

Lemma obj_keys_set_absent k v o :
  k ∉ obj_keys o → obj_keys (obj_set k v o) = obj_keys o ++ [k].
Proof.
  unfold obj_keys. induction o as [|[k' v'] o IH]; simpl; [done|].
  intros Hnot. apply not_elem_of_cons in Hnot as [Hne Hnot].
  rewrite decide_False by done. simpl. by rewrite IH.
Qed.

Lemma obj_keys_set_elem_of k k' v o :
  k' ∈ obj_keys (obj_set k v o) ↔ k' = k ∨ k' ∈ obj_keys o.
Proof.
  destruct (decide (k ∈ obj_keys o)) as [Hin|Hnot].
  - rewrite obj_keys_set_present by done.
    split; [by right | by intros [->|?]].
  - rewrite obj_keys_set_absent by done. rewrite elem_of_app, list_elem_of_singleton.
    split; intros [?|?]; auto.
Qed.

Lemma obj_keys_set_NoDup k v o :
  NoDup (obj_keys o) → NoDup (obj_keys (obj_set k v o)).
Proof.
  intros Hnd. destruct (decide (k ∈ obj_keys o)) as [Hin|Hnot].
  - by rewrite obj_keys_set_present.
  - rewrite obj_keys_set_absent by done. apply NoDup_app. split_and!; [done| |].
    + intros x Hx ->%list_elem_of_singleton. done.
    + apply NoDup_singleton.
Qed.

Lemma obj_set_set k v v' o : obj_set k v' (obj_set k v o) = obj_set k v' o.
Proof.
  induction o as [|[k0 v0] o IH]; simpl.
  - by rewrite decide_True.
  - destruct (decide (k = k0)) as [->|Hne]; simpl.
    + by rewrite decide_True.
    + rewrite decide_False by done. by rewrite IH.
Qed.

Lemma obj_set_Forall (P : string * V → Prop) k v o :
  P (k, v) → Forall P o → Forall P (obj_set k v o).
Proof.
  intros Hkv. induction 1 as [|[k0 v0] o H0 Ho IH]; simpl.
  - by constructor.
  - destruct (decide (k = k0)); constructor; auto.
Qed.

Lemma obj_set_same k v o : obj_get k o = Some v → obj_set k v o = o.
Proof.
  induction o as [|[k0 v0] o IH]; simpl; [done|].
  destruct (decide (k = k0)) as [->|Hne].
  - by intros [= ->].
  - intros Hk. by rewrite IH.
Qed.

Lemma obj_set_map_same {B} (g : string * V → B) k v v0 o :
  obj_get k o = Some v0 → g (k, v) = g (k, v0) →
  map g (obj_set k v o) = map g o.
Proof.
  intros Hk Hg. induction o as [|[k1 v1] o IH]; simpl in *; [done|].
  destruct (decide (k = k1)) as [->|Hne]; simpl.
  - injection Hk as ->. by rewrite Hg.
  - by rewrite IH.
Qed.

End ObjectLemmas.

(** ** The metrics exporter *)

Section ExporterProperties.
Import MultiWalletExporter.
Context `{PromClient}.

(** For a chain name that is not a property of [Map] objects, the
    guard of the listener is true whatever the map holds. *)
Lemma in_Map_chain {V} (m : Map V) chainName :
  chainName ∉ Map_properties → in_Map chainName m = false.
Proof. intros Hn. unfold in_Map. by rewrite bool_decide_eq_false. Qed.

(** For such a chain name the listener asks for a new counter on every
    event, whatever [errorCounters] holds already, puts it in the map
    under the chain name and increments it. *)
Lemma on_error_builds_a_counter_each_time options chainName this :
  chainName ∉ Map_properties →
  on_error options chainName this =
  match createExporterErrorCounter
          (chainName +:+ "_" +:+ or_string (options ≫= errorsName) "errors")
          (registry this) with
  | (Return counter, reg) =>
      (Return tt,
       {| registry := counter_inc counter reg;
          errorCounters := Map_set chainName counter (errorCounters this) |})
  | (Throw e, reg) =>
      (Throw e, {| registry := reg; errorCounters := errorCounters this |})
  end.
Proof.
  intros Hn. unfold on_error, bind, gets, id; simpl.
  rewrite (in_Map_chain _ _ Hn); simpl. unfold new_errorCounter.
  destruct (createExporterErrorCounter _ (registry this)) as [[counter|e] reg]; simpl;
    [|done].
  unfold Map_get, Map_set. by rewrite obj_get_set_eq.
Qed.

End ExporterProperties.

Section ExporterRuns.
Import MultiWalletExporter.

(** For a chain name that is a property of [Map] objects the listener
    builds nothing and fails on the lookup. *)
Example on_error_size :
  (on_error (H := keeping) None "size" (new_exporter (H := keeping) [])).1 =
  Throw (TypeError "Cannot read properties of undefined (reading 'inc')").
Proof. reflexivity. Qed.

(** C10 (the code departs from it): two 'error' events for
    ["ethereum"] on a new exporter.  The second event finds no property
    ["ethereum"] on the map object and asks for a second counter.  With a
    registry that accepts it, the second counter takes the place of the
    first in the map: two counters exist for the chain, each at 1, where
    one counter at 2 was meant.  With a registry that refuses a second
    metric of the same name, the second event throws. *)
Theorem second_error_event_builds_second_counter :
  deliver_errors (H := keeping) None ["ethereum"; "ethereum"]
    (new_exporter (H := keeping) []) =
  (Return tt,
   @Build_MultiWalletExporter keeping
     [ {| counter_name := "ethereum_errors"; counter_value := 1 |};
       {| counter_name := "ethereum_errors"; counter_value := 1 |} ]
     [("ethereum", 1)]) ∧
  (deliver_errors (H := refusing) None ["ethereum"; "ethereum"]
     (new_exporter (H := refusing) [])).1 =
  Throw (Error "A metric with the name ethereum_errors has already been registered.").
Proof. vm_compute. done. Qed.

End ExporterRuns.

(** ** The orchestrator: routing to one chain *)

Section Routing.
Import WalletManager.
Context `{Imports}.
Implicit Types (this : WalletManager) (chainName : string).

Lemma invoke_present {R} chainName c (method : CWM → Outcome R * CWM) this m :
  obj_get chainName (managers this) = Some m →
  invoke chainName c method this =
  ((method (state m)).1,
   set_managers
     (obj_set chainName {| listeners := listeners m; state := (method (state m)).2 |}
              (managers this))
     (set_trace (trace this ++ [Manager chainName c]) this)).
Proof. intros Hm. unfold invoke. rewrite Hm. by destruct (method (state m)). Qed.

(** C5: on a chain name without a manager, [acquireLock],
    [releaseLock], [getBlockHeight] and [getChainBalances] throw
    "No wallets configured for chain: ..." at once and leave the whole
    state as it was: no manager is called, nothing is counted by the
    exporter, nothing is logged.  ([acquireLock] is [async]: its caller
    sees the error as the rejection of the returned promise.) *)
Theorem unknown_chain_is_rejected_untouched this chainName opts address :
  obj_get chainName (managers this) = None →
  let unknown := Error ("No wallets configured for chain: " +:+ chainName) in
  acquireLock chainName opts this = (Throw unknown, this) ∧
  releaseLock chainName address this = (Throw unknown, this) ∧
  getBlockHeight chainName this = (Throw unknown, this) ∧
  getChainBalances chainName this = (Throw unknown, this).
Proof.
  intros Hm unknown.
  unfold acquireLock, releaseLock, getBlockHeight, getChainBalances,
    bind, gets, throw, id; simpl.
  by rewrite Hm.
Qed.

Lemma releaseLock_present chainName address this m :
  obj_get chainName (managers this) = Some m →
  releaseLock chainName address this =
  invoke chainName (call_releaseLock address) (cwm_releaseLock address) this.
Proof. intros Hm. unfold releaseLock, bind, gets, id; simpl. by rewrite Hm. Qed.

(** When the lock is not acquired, [withWallet] fails as [acquireLock]
    did: [fn] does not run and nothing is released. *)
Lemma withWallet_not_acquired this chainName (fn : WithWalletExecutor) opts e s :
  acquireLock chainName opts this = (Throw e, s) →
  withWallet chainName fn opts this = (Throw e, s).
Proof. intros Hacq. unfold withWallet, bind. by rewrite Hacq. Qed.

End Routing.

(** ** The orchestrator: fanout over the chains *)

Section Fanout.
Import WalletManager.
Context `{Imports}.
Implicit Types (this s : WalletManager) (c chainName : string).

(** A relation between the state before and after, kept by every
    mapper, is kept by the whole run. *)
Lemma run_mappers_keeps {T A} (rel : relation WalletManager) `{!PreOrder rel}
  (f : T → A → M A) items a s :
  (∀ x b t, rel t (f x b t).2) →
  rel s (run_mappers items f a s).2.
Proof.
  intros Hf. revert a s. induction items as [|x items IH]; intros a s; [done|].
  simpl. unfold bind. specialize (Hf x a s).
  destruct (f x a s) as [[b|e] t]; simpl in *; [|done].
  by etrans.
Qed.

Lemma invoke_keys {R} c call (method : CWM → Outcome R * CWM) s :
  obj_keys (managers (invoke c call method s).2) = obj_keys (managers s).
Proof.
  unfold invoke. destruct (obj_get c (managers s)) as [m|] eqn:Hm; [|done].
  destruct (method (state m)); simpl.
  apply obj_keys_set_present, obj_get_is_Some. by rewrite Hm.
Qed.

Section Collect.
Context {R : Type} (call : string → ManagerCall)
  (method : string → CWM → Outcome R * CWM) (wrap : string → Exn → Exn)
  (f : string → obj R → M (obj R)).
Hypothesis f_shape : ∀ c acc s,
  f c acc s =
  match invoke c (call c) (method c) s with
  | (Return r, s') => (Return (obj_set c r acc), s')
  | (Throw e, s') => (Throw (wrap c e), s')
  end.

Lemma collect_all ks acc s :
  NoDup ks →
  (∀ c, c ∈ ks → ∃ m r,
     obj_get c (managers s) = Some m ∧ (method c (state m)).1 = Return r) →
  ∃ acc', (run_mappers ks f acc s).1 = Return acc' ∧
    (∀ c, c ∈ obj_keys acc' ↔ c ∈ obj_keys acc ∨ c ∈ ks) ∧
    (∀ c m, c ∈ ks → obj_get c (managers s) = Some m →
       ∃ r, (method c (state m)).1 = Return r ∧ obj_get c acc' = Some r) ∧
    (∀ c, c ∉ ks → obj_get c acc' = obj_get c acc) ∧
    (NoDup (obj_keys acc) → NoDup (obj_keys acc')).
Proof using f_shape.
  intros Hnd. revert acc s.
  induction Hnd as [|c ks Hc Hnd IH]; intros acc s Hok.
  { exists acc. simpl. split_and!; try done.
    - intros c. rewrite elem_of_nil. tauto.
    - by intros c m ?%elem_of_nil. }
  destruct (Hok c) as (m & r & Hm & Hr); [left|].
  simpl. unfold bind. rewrite f_shape, (invoke_present _ _ _ _ _ Hm), Hr.
  set (s1 := set_managers _ _).
  destruct (IH (obj_set c r acc) s1) as (acc' & Hrun & Hkeys & Hval & Hout & Hnodup).
  { intros c' Hc'. destruct (Hok c') as (m' & r' & Hm' & Hr'); [by right|].
    exists m', r'. split; [|done]. subst s1; simpl.
    rewrite obj_get_set_ne; [done|]. intros ->. done. }
  exists acc'. split_and!; [done| | | |].
  - intros c'. rewrite Hkeys, obj_keys_set_elem_of, elem_of_cons. tauto.
  - intros c' m' [->|Hc']%elem_of_cons Hm'.
    + rewrite Hm in Hm'. injection Hm' as <-. exists r. split; [done|].
      rewrite Hout by done. apply obj_get_set_eq.
    + apply Hval; [done|]. subst s1; simpl.
      rewrite obj_get_set_ne; [done|]. intros ->. done.
  - intros c' Hc'. apply not_elem_of_cons in Hc' as [Hne Hc'].
    rewrite Hout by done. by apply obj_get_set_ne.
  - intros Hacc. by apply Hnodup, obj_keys_set_NoDup.
Qed.

Lemma collect_first_error ks acc s :
  NoDup ks →
  (∀ c, c ∈ ks → is_Some (obj_get c (managers s))) →
  (∃ c m e, c ∈ ks ∧ obj_get c (managers s) = Some m ∧
            (method c (state m)).1 = Throw e) →
  ∃ c m e, c ∈ ks ∧ obj_get c (managers s) = Some m ∧
           (method c (state m)).1 = Throw e ∧
           (run_mappers ks f acc s).1 = Throw (wrap c e).
Proof using f_shape.
  intros Hnd. revert acc s.
  induction Hnd as [|c ks Hc Hnd IH]; intros acc s Hall Hbad.
  { destruct Hbad as (c & m & e & []%elem_of_nil & _). }
  destruct (Hall c) as [m Hm]; [left|].
  simpl. unfold bind. rewrite f_shape, (invoke_present _ _ _ _ _ Hm).
  destruct ((method c (state m)).1) as [r|e] eqn:Hr.
  - set (s1 := set_managers _ _).
    assert (Hother : ∀ c', c' ∈ ks → obj_get c' (managers s1) = obj_get c' (managers s)).
    { intros c' Hc'. subst s1; simpl. rewrite obj_get_set_ne; [done|].
      intros ->. done. }
    destruct (IH (obj_set c r acc) s1) as (c' & m' & e' & Hc' & Hm' & He' & Hrun).
    + intros c' Hc'. rewrite Hother by done. apply Hall. by right.
    + destruct Hbad as (c' & m' & e' & Hc' & Hm' & He').
      apply elem_of_cons in Hc' as [->|Hc'].
      * rewrite Hm in Hm'. injection Hm' as <-. congruence.
      * exists c', m', e'. by rewrite Hother.
    + exists c', m', e'. split_and!; [by right| |done|done].
      by rewrite <- Hother.
  - exists c, m, e. split_and!; [left|done|done|done].
Qed.

End Collect.

Lemma run_mappers_keeps_proj {T A B} (π : WalletManager → B)
  (f : T → A → M A) items a s :
  (∀ x b t, π (f x b t).2 = π t) →
  π (run_mappers items f a s).2 = π s.
Proof.
  intros Hf. revert a s. induction items as [|x items IH]; intros a s; [done|].
  simpl. unfold bind. specialize (Hf x a s).
  destruct (f x a s) as [[b|e] t]; simpl in *; [|done].
  by rewrite IH.
Qed.

Lemma mapConcurrent_unfold {T A} (f : T → A → M A) items conc a s :
  mapConcurrent items f conc a s =
  run_mappers items f a (set_trace (trace s ++ [MapConcurrent (length items) conc]) s).
Proof. done. Qed.

Lemma invoke_concurrency_bounds {R} c call (method : CWM → Outcome R * CWM) s :
  concurrency_bounds (trace (invoke c call method s).2) = concurrency_bounds (trace s).
Proof.
  unfold invoke. destruct (obj_get c (managers s)) as [m|]; [|done].
  destruct (method (state m)); simpl.
  unfold concurrency_bounds. by rewrite omap_app, app_nil_r.
Qed.

(** The three mappers of the source have the shape the lemmas of
    [Collect] ask for. *)
Lemma blockHeight_mapper_shape c (acc : obj nat) s :
  try_catch
    (blockHeight <- invoke c call_getBlockHeight cwm_getBlockHeight ;;
     ret (obj_set c blockHeight acc))
    (fun err => throw (BlockHeightUnavailable c err)) s =
  match invoke c call_getBlockHeight cwm_getBlockHeight s with
  | (Return r, s') => (Return (obj_set c r acc), s')
  | (Throw e, s') => (Throw (BlockHeightUnavailable c e), s')
  end.
Proof.
  unfold try_catch, bind, ret, throw.
  by destruct (invoke c call_getBlockHeight cwm_getBlockHeight s) as [[?|?] ?].
Qed.

Lemma blockHeight_mapper_state c (acc : obj nat) s :
  (try_catch
     (blockHeight <- invoke c call_getBlockHeight cwm_getBlockHeight ;;
      ret (obj_set c blockHeight acc))
     (fun err => throw (BlockHeightUnavailable c err)) s).2 =
  (invoke c call_getBlockHeight cwm_getBlockHeight s).2.
Proof.
  rewrite blockHeight_mapper_shape.
  by destruct (invoke c call_getBlockHeight cwm_getBlockHeight s) as [[?|?] ?].
Qed.

Lemma plain_mapper_state {R} call (method : CWM → Outcome R * CWM) c (acc : obj R) s :
  ((r <- invoke c call method ;; ret (obj_set c r acc)) s).2 =
  (invoke c call method s).2.
Proof.
  unfold bind, ret. by destruct (invoke c call method s) as [[?|?] ?].
Qed.

Lemma plain_mapper_shape {R} call (method : CWM → Outcome R * CWM) c (acc : obj R) s :
  (r <- invoke c call method ;; ret (obj_set c r acc)) s =
  match invoke c call method s with
  | (Return r, s') => (Return (obj_set c r acc), s')
  | (Throw e, s') => (Throw e, s')
  end.
Proof.
  unfold bind, ret. by destruct (invoke c call method s) as [[?|?] ?].
Qed.

Lemma validateBlockHeightByChain_state heights s :
  (validateBlockHeightByChain heights s).2 = s.
Proof.
  unfold validateBlockHeightByChain.
  induction (obj_keys heights) as [|c cs IH]; [done|].
  simpl. unfold bind, gets, id at 1. simpl.
  destruct (obj_get c (managers s)); simpl; [|done]. apply IH.
Qed.

Lemma validateBlockHeightByChain_outcome heights s :
  (validateBlockHeightByChain heights s).1 =
  match filter (fun c => obj_get c (managers s) = None) (obj_keys heights) with
  | [] => Return tt
  | c :: _ => Throw (Error ("No wallets configured for chain: " +:+ c))
  end.
Proof.
  unfold validateBlockHeightByChain.
  induction (obj_keys heights) as [|c cs IH]; [done|].
  simpl. unfold bind, gets, id at 1. simpl.
  destruct (obj_get c (managers s)) eqn:Hc; simpl.
  - rewrite filter_cons_False by (rewrite Hc; done). apply IH.
  - rewrite filter_cons_True by done. done.
Qed.

(** C3: the keys of [managers] being distinct, as those of an object
    are: when the driver of every managed chain answers,
    [getBlockHeightForAllSupportedChains] returns a record with one
    entry per managed chain, holding that chain's height; when the
    driver of some chain fails, the call as a whole fails, with an error
    that names a chain whose driver failed and carries that driver
    error, and no record is returned. *)
Theorem getBlockHeightForAllSupportedChains_all_or_nothing this :
  NoDup (obj_keys (managers this)) →
  ((∀ c m, obj_get c (managers this) = Some m → ∃ h, height_of m = Return h) →
   ∃ heights,
     (getBlockHeightForAllSupportedChains this).1 = Return heights ∧
     NoDup (obj_keys heights) ∧
     (∀ c, c ∈ obj_keys heights ↔ c ∈ obj_keys (managers this)) ∧
     (∀ c m, obj_get c (managers this) = Some m →
             ∃ h, height_of m = Return h ∧ obj_get c heights = Some h)) ∧
  ((∃ c m e, obj_get c (managers this) = Some m ∧ height_of m = Throw e) →
   ∃ c m e,
     obj_get c (managers this) = Some m ∧ height_of m = Throw e ∧
     (getBlockHeightForAllSupportedChains this).1 =
     Throw (BlockHeightUnavailable c e)).
Proof.
  intros Hnd.
  unfold getBlockHeightForAllSupportedChains, bind, gets, id; simpl.
  rewrite mapConcurrent_unfold. set (s0 := set_trace _ this).
  split.
  - intros Hok.
    destruct (collect_all (fun _ => call_getBlockHeight) (fun _ => cwm_getBlockHeight)
                BlockHeightUnavailable _ blockHeight_mapper_shape
                (obj_keys (managers this)) [] s0 Hnd)
      as (heights & Hrun & Hkeys & Hval & _ & Hnodup).
    { intros c [m Hm]%obj_get_is_Some. destruct (Hok c m Hm) as [h Hh]. eauto. }
    exists heights. split_and!; [done| | |].
    + apply Hnodup. constructor.
    + intros c. rewrite Hkeys. unfold obj_keys at 2. simpl. rewrite elem_of_nil. tauto.
    + intros c m Hm. apply Hval; [|done]. apply obj_get_is_Some. by rewrite Hm.
  - intros (c & m & e & Hm & He).
    destruct (collect_first_error (fun _ => call_getBlockHeight)
                (fun _ => cwm_getBlockHeight)
                BlockHeightUnavailable _ blockHeight_mapper_shape
                (obj_keys (managers this)) [] s0 Hnd)
      as (c' & m' & e' & _ & Hm' & He' & Hrun).
    { intros c0 Hc0. by apply obj_get_is_Some. }
    { exists c, m, e. split_and!; [|done|done]. apply obj_get_is_Some. by rewrite Hm. }
    exists c', m', e'. done.
Qed.

Lemma fanout_concurrency_bounds {R} (f : string → obj R → M (obj R)) ks conc acc s :
  (∀ c b t, concurrency_bounds (trace (f c b t).2) = concurrency_bounds (trace t)) →
  concurrency_bounds (trace (mapConcurrent ks f conc acc s).2) =
  concurrency_bounds (trace s) ++ [conc].
Proof.
  intros Hf. rewrite mapConcurrent_unfold.
  rewrite (run_mappers_keeps_proj (fun t => concurrency_bounds (trace t))) by done.
  simpl. unfold concurrency_bounds. by rewrite omap_app.
Qed.

Lemma blockHeight_mapper_bounds c (acc : obj nat) s :
  concurrency_bounds (trace
    (try_catch
       (blockHeight <- invoke c call_getBlockHeight cwm_getBlockHeight ;;
        ret (obj_set c blockHeight acc))
       (fun err => throw (BlockHeightUnavailable c err)) s).2) =
  concurrency_bounds (trace s).
Proof.
  rewrite blockHeight_mapper_shape.
  rewrite <- (invoke_concurrency_bounds c call_getBlockHeight cwm_getBlockHeight s).
  by destruct (invoke c call_getBlockHeight cwm_getBlockHeight s) as [[?|?] ?].
Qed.

Lemma plain_mapper_bounds {R} call (method : CWM → Outcome R * CWM) c (acc : obj R) s :
  concurrency_bounds (trace ((r <- invoke c call method ;; ret (obj_set c r acc)) s).2) =
  concurrency_bounds (trace s).
Proof.
  rewrite plain_mapper_shape.
  rewrite <- (invoke_concurrency_bounds c call method s).
  by destruct (invoke c call method s) as [[?|?] ?].
Qed.

Lemma getBlockHeightForAllSupportedChains_bounds s :
  concurrency_bounds (trace (getBlockHeightForAllSupportedChains s).2) =
  concurrency_bounds (trace s) ++ [Some (length (obj_keys (managers s)))].
Proof.
  unfold getBlockHeightForAllSupportedChains, bind, gets, id; simpl.
  apply fanout_concurrency_bounds. intros c b t. apply blockHeight_mapper_bounds.
Qed.

Lemma getBlockHeightForAllSupportedChains_keys s :
  obj_keys (managers (getBlockHeightForAllSupportedChains s).2) = obj_keys (managers s).
Proof.
  unfold getBlockHeightForAllSupportedChains, bind, gets, id; simpl.
  rewrite mapConcurrent_unfold.
  rewrite (run_mappers_keeps_proj (fun t => obj_keys (managers t))); [done|].
  intros c b t.
  etrans; [|apply (invoke_keys c call_getBlockHeight cwm_getBlockHeight t)].
  apply (f_equal (fun x => obj_keys (managers x))), blockHeight_mapper_state.
Qed.

Lemma collect_keys_subset {R} (call : string → ManagerCall)
  (method : string → CWM → Outcome R * CWM) (wrap : string → Exn → Exn)
  (f : string → obj R → M (obj R)) ks acc s acc' :
  (∀ c acc s, f c acc s =
     match invoke c (call c) (method c) s with
     | (Return r, s') => (Return (obj_set c r acc), s')
     | (Throw e, s') => (Throw (wrap c e), s')
     end) →
  (run_mappers ks f acc s).1 = Return acc' →
  ∀ c, c ∈ obj_keys acc' → c ∈ obj_keys acc ∨ c ∈ ks.
Proof.
  intros Hf. revert acc s. induction ks as [|k ks IH]; intros acc s; simpl.
  { intros [= ->] c Hc. by left. }
  unfold bind. rewrite Hf.
  destruct (invoke k (call k) (method k) s) as [[r|e] s1]; [|done].
  intros Hrun c Hc. destruct (IH _ _ Hrun c Hc) as [Hin|Hin].
  - apply obj_keys_set_elem_of in Hin as [->|Hin]; [right; left|by left].
  - right. by right.
Qed.

Lemma invoke_snapshots {R} c call (method : CWM → Outcome R * CWM) s :
  (∀ m, cwm_getBalances (method m).2 = cwm_getBalances m) →
  snapshots (invoke c call method s).2 = snapshots s.
Proof.
  intros Hkeep. unfold invoke. destruct (obj_get c (managers s)) as [m|] eqn:Hm; [|done].
  specialize (Hkeep (state m)). destruct (method (state m)) as [r m']; simpl in *.
  unfold snapshots; simpl. apply (obj_set_map_same _ _ _ m); [done|].
  simpl. by rewrite Hkeep.
Qed.

Lemma invoke_read_state {R} c call (read : CWM → R) s :
  managers (invoke c call (fun m => (Return (read m), m)) s).2 = managers s.
Proof.
  unfold invoke. destruct (obj_get c (managers s)) as [m|] eqn:Hm; [|done].
  simpl. apply obj_set_same. rewrite Hm. by destruct m.
Qed.

Lemma getBlockHeightForAllSupportedChains_snapshots s :
  (∀ m, cwm_getBalances (cwm_getBlockHeight m).2 = cwm_getBalances m) →
  snapshots (getBlockHeightForAllSupportedChains s).2 = snapshots s.
Proof.
  intros Hkeep.
  unfold getBlockHeightForAllSupportedChains, bind, gets, id; simpl.
  rewrite mapConcurrent_unfold.
  rewrite (run_mappers_keeps_proj snapshots); [done|].
  intros c b t.
  etrans; [|by apply (invoke_snapshots c call_getBlockHeight cwm_getBlockHeight t)].
  apply (f_equal snapshots), blockHeight_mapper_state.
Qed.

(** The balance queries of [pullBalancesAtBlockHeight], once the
    heights are known. *)
Lemma pullBalancesAtBlockHeight_given heights s :
  (validateBlockHeightByChain heights s).1 = Return tt →
  pullBalancesAtBlockHeight (Some heights) s =
  mapConcurrent (obj_keys (managers s))
    (fun chainName balances =>
       balancesByChain <-
         invoke chainName (call_pullBalancesAtBlockHeight (obj_get chainName heights))
           (cwm_pullBalancesAtBlockHeight (obj_get chainName heights)) ;;
       ret (obj_set chainName balancesByChain balances))
    None [] s.
Proof.
  intros Hv. unfold pullBalancesAtBlockHeight, bind at 1.
  pose proof (validateBlockHeightByChain_state heights s) as Hst.
  destruct (validateBlockHeightByChain heights s) as [[[]|e] s1]; simpl in *;
    [subst s1|done].
  done.
Qed.

Lemma validateBlockHeightByChain_known heights s :
  (∀ c, c ∈ obj_keys heights → c ∈ obj_keys (managers s)) →
  (validateBlockHeightByChain heights s).1 = Return tt.
Proof.
  intros Hknown. rewrite validateBlockHeightByChain_outcome.
  destruct (filter _ _) as [|c cs] eqn:Hf; [done|].
  assert (Hc : c ∈ filter (fun c => obj_get c (managers s) = None) (obj_keys heights))
    by (rewrite Hf; left).
  apply list_elem_of_filter in Hc as [Hnone Hc].
  apply obj_get_None in Hnone. by apply Hknown in Hc.
Qed.

(** C6: the keys of [managers] being distinct, and the chain managers
    leaving their balance table alone when asked for a block height or
    for the balances at a block height:
    - with a height record that has a key without manager, the call
      fails on such a key before any manager is called;
    - with a height record whose keys all have a manager, every managed
      chain is queried at the height the record holds for it, and when
      all queries answer the result is a new record with one entry per
      managed chain, holding that chain's answer; when a query fails,
      the call fails with that query's error;
    - without a record, [getBlockHeightForAllSupportedChains] runs
      first: when it fails the call fails with its error, otherwise the
      call goes on as with the record it returned;
    - in every case the snapshot of every manager is what it was. *)
Theorem pullBalancesAtBlockHeight_at_given_or_current_heights this :
  NoDup (obj_keys (managers this)) →
  (∀ h m, cwm_getBalances (cwm_pullBalancesAtBlockHeight h m).2 = cwm_getBalances m) →
  (∀ m, cwm_getBalances (cwm_getBlockHeight m).2 = cwm_getBalances m) →
  (∀ heights c,
     c ∈ obj_keys heights → obj_get c (managers this) = None →
     ∃ c', c' ∈ obj_keys heights ∧ obj_get c' (managers this) = None ∧
           pullBalancesAtBlockHeight (Some heights) this =
           (Throw (Error ("No wallets configured for chain: " +:+ c')), this)) ∧
  (∀ heights,
     (∀ c, c ∈ obj_keys heights → c ∈ obj_keys (managers this)) →
     let query c m := (cwm_pullBalancesAtBlockHeight (obj_get c heights) (state m)).1 in
     ((∀ c m, obj_get c (managers this) = Some m → ∃ b, query c m = Return b) →
      ∃ balances,
        (pullBalancesAtBlockHeight (Some heights) this).1 = Return balances ∧
        NoDup (obj_keys balances) ∧
        (∀ c, c ∈ obj_keys balances ↔ c ∈ obj_keys (managers this)) ∧
        (∀ c m, obj_get c (managers this) = Some m →
                ∃ b, query c m = Return b ∧ obj_get c balances = Some b)) ∧
     ((∃ c m e, obj_get c (managers this) = Some m ∧ query c m = Throw e) →
      ∃ c m e, obj_get c (managers this) = Some m ∧ query c m = Throw e ∧
               (pullBalancesAtBlockHeight (Some heights) this).1 = Throw e)) ∧
  (∀ heights s, getBlockHeightForAllSupportedChains this = (Return heights, s) →
     pullBalancesAtBlockHeight None this = pullBalancesAtBlockHeight (Some heights) s) ∧
  (∀ e s, getBlockHeightForAllSupportedChains this = (Throw e, s) →
     pullBalancesAtBlockHeight None this = (Throw e, s)) ∧
  (∀ given, snapshots (pullBalancesAtBlockHeight given this).2 = snapshots this).
Proof.
  intros Hnd Hpull Hheight.
  assert (Hgiven_snap : ∀ heights s,
    snapshots (pullBalancesAtBlockHeight (Some heights) s).2 = snapshots s).
  { intros heights s.
    destruct ((validateBlockHeightByChain heights s).1) as [[]|e] eqn:Hv.
    - rewrite pullBalancesAtBlockHeight_given by done.
      rewrite mapConcurrent_unfold.
      rewrite (run_mappers_keeps_proj snapshots); [done|].
      intros c b t. rewrite plain_mapper_state. by apply invoke_snapshots.
    - unfold pullBalancesAtBlockHeight, bind at 1.
      pose proof (validateBlockHeightByChain_state heights s) as Hst.
      destruct (validateBlockHeightByChain heights s) as [[[]|e'] s1]; simpl in *;
        [done|by subst s1]. }
  assert (Hnone : ∀ heights s,
    getBlockHeightForAllSupportedChains this = (Return heights, s) →
    pullBalancesAtBlockHeight None this = pullBalancesAtBlockHeight (Some heights) s).
  { intros heights s Hrun.
    rewrite pullBalancesAtBlockHeight_given.
    - unfold pullBalancesAtBlockHeight, bind at 1. unfold ret at 1.
      unfold bind at 1. rewrite Hrun. done.
    - apply validateBlockHeightByChain_known. intros c Hc.
      pose proof (getBlockHeightForAllSupportedChains_keys this) as Hkeys.
      rewrite Hrun in Hkeys. simpl in Hkeys. rewrite Hkeys.
      assert (Hout : (getBlockHeightForAllSupportedChains this).1 = Return heights)
        by (by rewrite Hrun).
      unfold getBlockHeightForAllSupportedChains, bind, gets, id in Hout; simpl in Hout.
      rewrite mapConcurrent_unfold in Hout.
      destruct (collect_keys_subset (fun _ => call_getBlockHeight)
                  (fun _ => cwm_getBlockHeight) BlockHeightUnavailable _ _ _ _ _
                  blockHeight_mapper_shape Hout c Hc) as [[]%elem_of_nil|?]; done. }
  split_and!.
  - intros heights c Hc Hmiss.
    pose proof (validateBlockHeightByChain_outcome heights this) as Hout.
    pose proof (validateBlockHeightByChain_state heights this) as Hst.
    destruct (filter _ _) as [|c' cs] eqn:Hf.
    { assert (Hin : c ∈ filter (fun c => obj_get c (managers this) = None)
                               (obj_keys heights))
        by (by apply list_elem_of_filter).
      rewrite Hf in Hin. by apply elem_of_nil in Hin. }
    assert (Hc' : c' ∈ filter (fun c => obj_get c (managers this) = None)
                              (obj_keys heights)) by (rewrite Hf; left).
    apply list_elem_of_filter in Hc' as [Hnone' Hc'].
    exists c'. split_and!; [done|done|].
    unfold pullBalancesAtBlockHeight, bind at 1.
    destruct (validateBlockHeightByChain heights this) as [r s1]; simpl in *.
    by subst r s1.
  - intros heights Hknown query.
    pose proof (validateBlockHeightByChain_known heights this Hknown) as Hv.
    rewrite (pullBalancesAtBlockHeight_given _ _ Hv), mapConcurrent_unfold.
    set (s0 := set_trace _ this).
    pose proof (fun c acc s =>
      plain_mapper_shape (call_pullBalancesAtBlockHeight (obj_get c heights))
        (cwm_pullBalancesAtBlockHeight (obj_get c heights)) c acc s) as Hshape.
    split.
    + intros Hok.
      destruct (collect_all
                  (fun c => call_pullBalancesAtBlockHeight (obj_get c heights))
                  (fun c => cwm_pullBalancesAtBlockHeight (obj_get c heights))
                  (fun _ e => e) _ Hshape (obj_keys (managers this)) [] s0 Hnd)
        as (balances & Hrun & Hkeys & Hval & _ & Hnodup).
      { intros c [m Hm]%obj_get_is_Some. destruct (Hok c m Hm) as [b Hb]. eauto. }
      exists balances. split_and!; [done| | |].
      * apply Hnodup. constructor.
      * intros c. rewrite Hkeys. unfold obj_keys at 2. simpl. rewrite elem_of_nil. tauto.
      * intros c m Hm. apply Hval; [|done]. apply obj_get_is_Some. by rewrite Hm.
    + intros (c & m & e & Hm & He).
      destruct (collect_first_error
                  (fun c => call_pullBalancesAtBlockHeight (obj_get c heights))
                  (fun c => cwm_pullBalancesAtBlockHeight (obj_get c heights))
                  (fun _ e => e) _ Hshape (obj_keys (managers this)) [] s0 Hnd)
        as (c' & m' & e' & _ & Hm' & He' & Hrun).
      { intros c0 Hc0. by apply obj_get_is_Some. }
      { exists c, m, e. split_and!; [|done|done]. apply obj_get_is_Some. by rewrite Hm. }
      exists c', m', e'. done.
  - done.
  - intros e s Hrun. unfold pullBalancesAtBlockHeight, bind at 1. unfold ret at 1.
    unfold bind at 1. by rewrite Hrun.
  - intros [heights|]; [done|].
    pose proof (getBlockHeightForAllSupportedChains_snapshots this Hheight) as Hs.
    destruct (getBlockHeightForAllSupportedChains this) as [[heights|e] s] eqn:Hrun.
    + rewrite (Hnone heights s) by done. by rewrite Hgiven_snap.
    + unfold pullBalancesAtBlockHeight, bind at 1. unfold ret at 1.
      unfold bind at 1. by rewrite Hrun.
Qed.

End Fanout.

(** ** The orchestrator: construction *)

Section Construction.
Import WalletManager.
Context `{Imports}.
Implicit Types (this s : WalletManager) (c chainName : string).

Lemma for_of_keeps {S T} (P : S → Prop) (body : T → Eff S unit) xs (st : S) :
  (∀ x (t : S), x ∈ xs → P t → P (body x t).2) → P st → P (for_of xs body st).2.
Proof.
  revert st. induction xs as [|x xs IH]; intros st Hbody Hs; [done|].
  simpl. unfold bind.
  assert (Hx : P (body x st).2) by (apply Hbody; [left|done]).
  destruct (body x st) as [[[]|e] t]; simpl in *; [|done].
  apply IH; [|done]. intros y u Hy. apply Hbody. by right.
Qed.

Lemma for_of_cons {S T} (body : T → Eff S unit) x xs (st : S) :
  for_of (x :: xs) body st =
  match body x st with
  | (Return _, t) => for_of xs body t
  | (Throw e, t) => (Throw e, t)
  end.
Proof. done. Qed.

Lemma isChain_known c :
  isChain c = true → ∃ info, obj_get c KNOWN_CHAINS = Some info.
Proof. unfold isChain. intros [info Hi]%bool_decide_eq_true. eauto. Qed.

Lemma construct_chain_invalid options pf c chainCfg s :
  isChain c = false →
  construct_chain options pf (c, chainCfg) s =
  if options_failOnInvalidChain options
  then (Throw (Error ("Invalid chain name: " +:+ c)), s)
  else (Return tt, set_trace (trace s ++ [Log "warn" ("Invalid chain name: " +:+ c)]) s).
Proof.
  intros Hc. unfold construct_chain. rewrite Hc. simpl.
  by destruct (options_failOnInvalidChain options).
Qed.

Lemma construct_chain_valid options pf c chainCfg s :
  isChain c = true →
  construct_chain options pf (c, chainCfg) s =
  let cfg := chainManagerConfig_of options c chainCfg in
  let built := NewChainWalletManager cfg (wallets chainCfg) pf in
  match cwm_new cfg (wallets chainCfg) pf with
  | Return m0 =>
      (Return tt,
       set_managers
         (obj_set c {| listeners := wiring c (network_of c chainCfg);
                       state := cwm_start m0 |} (managers s))
         (set_trace (trace s ++ [built; Manager c call_start]) s))
  | Throw e => (Throw e, set_trace (trace s ++ [built]) s)
  end.
Proof.
  intros Hc. destruct (isChain_known c Hc) as [info Hinfo].
  unfold construct_chain. rewrite Hc. cbn [negb].
  unfold bind at 1. unfold chainManagerConfig_of, network_of, or_string, getDefaultNetwork.
  rewrite Hinfo. simpl.
  assert (Hrest : ∀ a,
    (chainManager <-
       new_ChainWalletManager
         {| cm_network := a; cm_chainName := c; cm_rebalance := rebalance chainCfg;
            cm_walletOptions := chainConfig chainCfg;
            cm_walletBalanceConfig := walletBalanceConfig chainCfg;
            cm_balancePollInterval := options ≫= balancePollInterval;
            cm_failOnInvalidTokens := options_failOnInvalidTokens options |}
         (wallets chainCfg) pf ;;
     modify (fun this =>
       set_managers
         (obj_set c {| listeners := wiring c a; state := chainManager |}
                  (managers this)) this) ;;
     invoke c call_start (fun s0 : CWM => (Return tt, cwm_start s0))) s =
    let cfg :=
      {| cm_network := a; cm_chainName := c; cm_rebalance := rebalance chainCfg;
         cm_walletOptions := chainConfig chainCfg;
         cm_walletBalanceConfig := walletBalanceConfig chainCfg;
         cm_balancePollInterval := options ≫= balancePollInterval;
         cm_failOnInvalidTokens := options_failOnInvalidTokens options |} in
    match cwm_new cfg (wallets chainCfg) pf with
    | Return m0 =>
        (Return tt,
         set_managers
           (obj_set c {| listeners := wiring c a; state := cwm_start m0 |} (managers s))
           (set_trace
              (trace s ++ [NewChainWalletManager cfg (wallets chainCfg) pf;
                           Manager c call_start]) s))
    | Throw e =>
        (Throw e,
         set_trace (trace s ++ [NewChainWalletManager cfg (wallets chainCfg) pf]) s)
    end).
  { intros a. unfold new_ChainWalletManager.
    unfold bind, record, modify, ret, throw. simpl.
    destruct (cwm_new _ (wallets chainCfg) pf) as [m0|e]; simpl; [|done].
    unfold invoke. simpl. rewrite obj_get_set_eq. simpl.
    by rewrite obj_set_set, <- app_assoc. }
  destruct (network chainCfg) as [n|]; [destruct (decide (n = ""))|]; apply Hrest.
Qed.

Lemma priceFeeds_passed_app t1 t2 :
  priceFeeds_passed (t1 ++ t2) = priceFeeds_passed t1 ++ priceFeeds_passed t2.
Proof. apply omap_app. Qed.

Lemma priceFeeds_built_app t1 t2 :
  priceFeeds_built (t1 ++ t2) = priceFeeds_built t1 ++ priceFeeds_built t2.
Proof. apply omap_app. Qed.

(** One turn of the loop keeps what holds of the object. *)
Lemma construct_chain_keeps config options pf entry s :
  entry ∈ config →
  under_construction config options pf s →
  under_construction config options pf (construct_chain options pf entry s).2.
Proof.
  destruct entry as [c chainCfg]. intros Hentry (Hwired & Hnd & Hstart & Hpass & Hbuilt).
  unfold under_construction.
  destruct (isChain c) eqn:Hc.
  - rewrite construct_chain_valid by done. cbv zeta.
    destruct (cwm_new _ (wallets chainCfg) pf) as [m0|e] eqn:Hnew;
      cbn [snd trace managers set_managers set_trace].
    + split_and!.
      * apply obj_set_Forall; [|done]. exists chainCfg, m0. done.
      * by apply obj_keys_set_NoDup.
      * intros c' [->|Hc']%obj_keys_set_elem_of; rewrite elem_of_app.
        -- right. right. left.
        -- left. auto.
      * rewrite priceFeeds_passed_app. apply Forall_app. split; [done|].
        simpl. by constructor.
      * rewrite priceFeeds_built_app. simpl. by rewrite app_nil_r.
    + split_and!; [done|done| | |].
      * intros c' Hc'. rewrite elem_of_app. left. auto.
      * rewrite priceFeeds_passed_app. apply Forall_app. split; [done|].
        simpl. by constructor.
      * rewrite priceFeeds_built_app. simpl. by rewrite app_nil_r.
  - rewrite construct_chain_invalid by done.
    destruct (options_failOnInvalidChain options);
      cbn [snd trace managers set_managers set_trace]; [done|].
    split_and!; [done|done| | |].
    + intros c' Hc'. rewrite elem_of_app. left. auto.
    + rewrite priceFeeds_passed_app. simpl. by rewrite app_nil_r.
    + rewrite priceFeeds_built_app. simpl. by rewrite app_nil_r.
Qed.

(** The keys the loop leaves in [managers] when it runs to its end. *)
Lemma construct_loop_keys options pf entries s s' :
  for_of entries (construct_chain options pf) s = (Return tt, s') →
  ∀ c, c ∈ obj_keys (managers s') ↔
       c ∈ obj_keys (managers s) ∨ (c ∈ obj_keys entries ∧ isChain c = true).
Proof.
  revert s. induction entries as [|[k chainCfg] entries IH]; intros s.
  { intros [= <-] c. split; [by left|]. by intros [?|[[]%elem_of_nil ?]]. }
  rewrite for_of_cons.
  destruct (construct_chain options pf (k, chainCfg) s) as [[[]|e] s1] eqn:Hstep;
    [|intros [=]].
  intros Hrest c. rewrite (IH _ Hrest c).
  change (obj_keys ((k, chainCfg) :: entries)) with (k :: obj_keys entries).
  rewrite elem_of_cons.
  destruct (isChain k) eqn:Hk.
  - rewrite construct_chain_valid in Hstep by done. simpl in Hstep.
    destruct (cwm_new _ (wallets chainCfg) pf); [|done].
    injection Hstep as <-. simpl. rewrite obj_keys_set_elem_of.
    split; [intros [[->|?]|[? ?]]|intros [?|[[->|?] ?]]]; auto.
  - rewrite construct_chain_invalid in Hstep by done.
    destruct (options_failOnInvalidChain options); [done|].
    injection Hstep as <-. simpl.
    split; [intros [?|[? ?]]|intros [?|[[->|?] ?]]]; auto. congruence.
Qed.

Lemma build_exporter_state options s :
  ∃ e logged,
    (build_exporter options s) = (Return tt, set_exporter e (set_trace (trace s ++ logged) s)) ∧
    priceFeeds_built logged = [] ∧ priceFeeds_passed logged = [].
Proof.
  unfold build_exporter. destruct (options ≫= metrics) as [m|].
  2:{ exists (exporter s), []. rewrite app_nil_r. by destruct s. }
  destruct (metrics_enabled m).
  2:{ exists (exporter s), []. rewrite app_nil_r. by destruct s. }
  unfold new_PrometheusExporter, bind, record, modify, log, record, modify; simpl.
  destruct (metrics_serve m) as [[]|]; simpl.
  - eexists _, [_; _; _]. unfold exporter_call, bind, gets, record, modify, id; simpl.
    rewrite <- !app_assoc. simpl. done.
  - eexists _, [_]. done.
  - eexists _, [_]. done.
Qed.

Lemma build_priceFeed_state config options s :
  build_priceFeed config options s =
  (Return (selected_priceFeed config options),
   set_trace (trace s ++ match selected_priceFeed config options with
                         | Some pf => [NewPriceFeed pf]
                         | None => []
                         end) s).
Proof.
  unfold build_priceFeed, selected_priceFeed, isPriceFeedEnabled.
  destruct (options ≫= priceFeedOptions) as [p|]; simpl.
  2:{ rewrite app_nil_r. by destruct s. }
  destruct (pf_enabled p); simpl.
  2:{ rewrite app_nil_r. by destruct s. }
  by destruct (pf_scheduled p) as [[[] ?]|].
Qed.

(** What holds of the object the constructor leaves, whether it
    returned or threw. *)
Lemma constructor_establishes config options :
  under_construction config options (selected_priceFeed config options)
    (new_WalletManager config options).2.
Proof.
  unfold new_WalletManager, constructor. unfold bind at 1.
  destruct (build_exporter_state options fresh) as (e & logged & -> & Hb & Hp).
  unfold bind at 1. rewrite build_priceFeed_state. simpl.
  apply for_of_keeps.
  - intros entry t Hentry. by apply construct_chain_keeps.
  - split_and!; simpl.
    + constructor.
    + constructor.
    + by intros c ?%elem_of_nil.
    + rewrite priceFeeds_passed_app, Hp. simpl.
      destruct (selected_priceFeed config options); simpl; constructor.
    + rewrite priceFeeds_built_app, Hb. simpl.
      by destruct (selected_priceFeed config options).
Qed.

Lemma constructor_keys config options this :
  new_WalletManager config options = (Return tt, this) →
  ∀ c, c ∈ obj_keys (managers this) ↔ c ∈ obj_keys config ∧ isChain c = true.
Proof.
  unfold new_WalletManager, constructor. unfold bind at 1.
  destruct (build_exporter_state options fresh) as (e & logged & -> & Hb & Hp).
  unfold bind at 1. rewrite build_priceFeed_state. simpl.
  intros Hloop c. rewrite (construct_loop_keys _ _ _ _ _ Hloop c). simpl.
  split; [|by right]. by intros [[]%elem_of_nil|?].
Qed.

(** The keys of [managers] are distinct, as those of an object are. *)
Lemma constructed_keys_NoDup config options outcome this :
  new_WalletManager config options = (outcome, this) →
  NoDup (obj_keys (managers this)).
Proof.
  intros Hnew. pose proof (constructor_establishes config options) as (_ & Hnd & _).
  by rewrite Hnew in Hnd.
Qed.

(** C7: whatever the configuration and the options, and whether the
    constructor returns or throws: the price feeds it builds are the one
    the options select and no other (none when
    [priceFeedOptions.enabled] is false or absent, a scheduled one when
    [scheduled.enabled] is set, an on-demand one otherwise); every
    [new ChainWalletManager] receives that same value of
    [priceFeedInstance]; every manager kept was built with it. *)
Theorem one_priceFeed_shared_by_all_managers config options :
  let this := (new_WalletManager config options).2 in
  let shared := selected_priceFeed config options in
  priceFeeds_built (trace this) = option_list shared ∧
  length (priceFeeds_built (trace this)) ≤ 1 ∧
  Forall (fun passed => passed = shared) (priceFeeds_passed (trace this)) ∧
  Forall (wired config options shared) (managers this).
Proof.
  intros this shared. subst this shared.
  destruct (constructor_establishes config options) as (Hwired & _ & _ & Hpass & Hbuilt).
  split_and!; [done| |done|done].
  rewrite Hbuilt. destruct (selected_priceFeed config options); simpl; lia.
Qed.

Lemma emitted_app t1 t2 : emitted (t1 ++ t2) = emitted t1 ++ emitted t2.
Proof. apply omap_app. Qed.

Lemma manager_emits_present c m ev s :
  obj_get c (managers s) = Some m →
  manager_emits c ev s =
  for_of (filter (fun nl => nl.1 = event_name ev) (listeners m))
         (fun nl => listener_body nl.2 ev) s.
Proof. intros Hm. unfold manager_emits, bind, gets, id. simpl. by rewrite Hm. Qed.

Lemma emitted_snoc_Emit t ev : emitted (t ++ [Emit ev]) = emitted t ++ [ev].
Proof. by rewrite emitted_app. Qed.

Lemma emitted_snoc_Log t level message : emitted (t ++ [Log level message]) = emitted t.
Proof. rewrite emitted_app. simpl. by rewrite app_nil_r. Qed.

Lemma emitted_snoc_Exporter t call : emitted (t ++ [Exporter call]) = emitted t.
Proof. rewrite emitted_app. simpl. by rewrite app_nil_r. Qed.

(** What the two relayed events put on the bus, for a manager that
    carries the listeners of the constructor. *)
Lemma manager_emits_balances c network m b pb s :
  obj_get c (managers s) = Some m →
  listeners m = wiring c network →
  (manager_emits c (ev_balances b pb) s).1 = Return tt ∧
  emitted (trace (manager_emits c (ev_balances b pb) s).2) =
  emitted (trace s) ++ [bus_balances c network b pb].
Proof.
  intros Hm Hl. rewrite (manager_emits_present _ _ _ _ Hm), Hl.
  change (filter _ (wiring c network)) with [("balances", on_balances c network)].
  rewrite for_of_cons. cbn [snd listener_body].
  unfold bind, log, exporter_call, emit, bind, record, modify, gets, ret, id.
  cbn [fst snd trace exporter set_trace].
  destruct (exporter s); cbn [fst snd trace exporter set_trace for_of ret].
  - by rewrite emitted_snoc_Emit, emitted_snoc_Exporter, emitted_snoc_Log.
  - by rewrite emitted_snoc_Emit, emitted_snoc_Log.
Qed.

Lemma manager_emits_error c network m e s :
  obj_get c (managers s) = Some m →
  listeners m = wiring c network →
  (manager_emits c (ev_error e) s).1 =
    (if bool_decide ("error" ∈ emitter s) then Return tt else Throw e) ∧
  emitted (trace (manager_emits c (ev_error e) s).2) =
  emitted (trace s) ++ [bus_error e c].
Proof.
  intros Hm Hl. rewrite (manager_emits_present _ _ _ _ Hm), Hl.
  change (filter _ (wiring c network)) with [("error", on_error c)].
  rewrite for_of_cons. cbn [snd listener_body].
  unfold bind, log, emit, bind, record, modify, gets, throw, ret, id.
  cbn [fst snd trace emitter set_trace].
  destruct (bool_decide ("error" ∈ emitter s));
    cbn [fst snd trace emitter set_trace for_of ret];
    by rewrite emitted_snoc_Emit, emitted_snoc_Log.
Qed.

(** C9: after a construction that returned, every valid chain of the
    configuration has a manager; each manager carries the listeners of
    the constructor, for its chain name and for the network of its
    entry (or the chain's default), and was started; from then on, as
    long as the manager carries these listeners, a 'balances' event it
    emits goes on the orchestrator's bus as
    [(chainName, network, balances, previousBalances)] and an 'error'
    event as [(error, chainName)]. *)
Theorem constructor_wires_and_starts config options this :
  new_WalletManager config options = (Return tt, this) →
  (∀ c, c ∈ obj_keys config → isChain c = true →
        is_Some (obj_get c (managers this))) ∧
  (∀ c m, obj_get c (managers this) = Some m →
     ∃ chainCfg m0,
       (c, chainCfg) ∈ config ∧
       listeners m = wiring c (network_of c chainCfg) ∧
       state m = cwm_start m0 ∧
       Manager c call_start ∈ trace this ∧
       ∀ later m',
         obj_get c (managers later) = Some m' → listeners m' = listeners m →
         (∀ b pb,
            emitted (trace (manager_emits c (ev_balances b pb) later).2) =
            emitted (trace later) ++ [bus_balances c (network_of c chainCfg) b pb]) ∧
         (∀ e,
            emitted (trace (manager_emits c (ev_error e) later).2) =
            emitted (trace later) ++ [bus_error e c])).
Proof.
  intros Hnew.
  pose proof (constructor_establishes config options) as (Hwired & _ & Hstart & _ & _).
  pose proof (constructor_keys config options this Hnew) as Hkeys.
  rewrite Hnew in Hwired, Hstart. simpl in Hwired, Hstart.
  split.
  - intros c Hc Hvalid. apply obj_get_is_Some, Hkeys. done.
  - intros c m Hm.
    pose proof (obj_get_elem_of _ _ _ Hm) as Hin.
    rewrite Forall_forall in Hwired.
    destruct (Hwired _ Hin) as (chainCfg & m0 & Hcfg & _ & Hl & _ & Hst). simpl in *.
    exists chainCfg, m0. split_and!; [done|done|done| |].
    + apply Hstart, obj_get_is_Some. by rewrite Hm.
    + intros later m' Hm' Hl'. rewrite Hl in Hl'. split.
      * intros b pb. by destruct (manager_emits_balances c _ m' b pb later Hm' Hl').
      * intros e. by destruct (manager_emits_error c _ m' e later Hm' Hl').
Qed.

End Construction.

(** ** The orchestrator: reading the balances *)

Section Balances.
Import WalletManager.
Context `{Imports}.
Implicit Types (this s : WalletManager) (c chainName : string).

Lemma only_adds_preorder (P : Action → Prop) : PreOrder (only_adds P).
Proof.
  split.
  - intros s. exists []. by rewrite app_nil_r.
  - intros s1 s2 s3 (a1 & H1 & HP1) (a2 & H2 & HP2).
    exists (a1 ++ a2). rewrite H2, H1, app_assoc. split; [done|]. by apply Forall_app.
Qed.

Lemma invoke_only_adds {R} (P : Action → Prop) c call
  (method : CWM → Outcome R * CWM) s :
  P (Manager c call) → only_adds P s (invoke c call method s).2.
Proof.
  intros HP. unfold invoke.
  destruct (obj_get c (managers s)) as [m|]; [|by apply only_adds_preorder].
  destruct (method (state m)); simpl. exists [Manager c call]. split; [done|].
  by constructor.
Qed.

Lemma mapToChains_unfold {T} (method : string → M T) s :
  mapToChains method s =
  mapConcurrent (obj_keys (managers s))
    (fun chainName result => r <- method chainName ;; ret (obj_set chainName r result))
    None [] s.
Proof. done. Qed.

(** C4: for an orchestrator whose managers are those a construction
    that returned has left ([built]), [getAllBalances] returns a record
    whose keys are distinct and are the chain names of the configuration
    that belong to the known set, no more and no fewer; the entry of a
    chain is what [getBalances] of its manager reads; the managers are
    left as they were, and nothing is asked of them but [getBalances]. *)
Theorem getAllBalances_one_entry_per_valid_chain config options built this :
  new_WalletManager config options = (Return tt, built) →
  obj_keys (managers this) = obj_keys (managers built) →
  ∃ result,
    (getAllBalances this).1 = Return result ∧
    NoDup (obj_keys result) ∧
    (∀ c, c ∈ obj_keys result ↔ c ∈ obj_keys config ∧ isChain c = true) ∧
    (∀ c, c ∈ obj_keys result →
          ∃ m, obj_get c (managers this) = Some m ∧
               obj_get c result = Some (cwm_getBalances (state m))) ∧
    managers (getAllBalances this).2 = managers this ∧
    only_adds (fun a => (∃ n, a = MapConcurrent n None) ∨
                        (∃ c, a = Manager c call_getBalances))
              this (getAllBalances this).2.
Proof.
  intros Hnew Hsame.
  assert (Hnd : NoDup (obj_keys (managers this))).
  { rewrite Hsame. eapply constructed_keys_NoDup, Hnew. }
  pose proof (only_adds_preorder
    (fun a => (∃ n, a = MapConcurrent n None) ∨ (∃ c, a = Manager c call_getBalances)))
    as Hpre.
  pose proof (constructor_keys config options built Hnew) as Hkeys.
  unfold getAllBalances. rewrite mapToChains_unfold, mapConcurrent_unfold.
  set (s0 := set_trace _ this).
  pose proof (fun c acc s =>
    plain_mapper_shape call_getBalances
      (fun m => (Return (cwm_getBalances m), m)) c acc s) as Hshape.
  destruct (collect_all (fun _ => call_getBalances)
              (fun _ m => (Return (cwm_getBalances m), m))
              (fun _ e => e) _ Hshape (obj_keys (managers this)) [] s0 Hnd)
    as (result & Hrun & Hres & Hval & _ & Hnodup).
  { intros c [m Hm]%obj_get_is_Some. by exists m, (cwm_getBalances (state m)). }
  exists result. split_and!; [done| | | | |].
  - apply Hnodup. constructor.
  - intros c. rewrite Hres, <- Hkeys, <- Hsame. split; [|by right].
    by intros [[]%elem_of_nil|?].
  - intros c Hc. apply Hres in Hc as [[]%elem_of_nil|Hc].
    pose proof Hc as [m Hm]%obj_get_is_Some. exists m. split; [done|].
    destruct (Hval c m Hc Hm) as (b & [= <-] & Hb). done.
  - rewrite (run_mappers_keeps_proj managers); [done|].
    intros c b t. rewrite plain_mapper_state. apply invoke_read_state.
  - trans s0.
    + exists [MapConcurrent (length (obj_keys (managers this))) None].
      split; [done|]. constructor; [|done]. left. eauto.
    + apply (run_mappers_keeps (only_adds _)). intros c b t.
      rewrite plain_mapper_state. apply invoke_only_adds. right. eauto.
Qed.

End Balances.

(** ** Runs on the simulated chains *)

Section Runs.
Import WalletManager Simulation.

(** C2 (the code departs from it): a configuration with the unknown
    chain name ["not-a-chain"], no options given.  The constructor logs a
    warning, skips the entry and returns, where the default of
    [failOnInvalidChain] asks for the error that the same configuration
    gets once the flag is passed explicitly; [failOnInvalidTokens], read
    on the next lines of the constructor, does get its default. *)
Theorem constructor_without_options_skips_unknown_chain :
  let without := new_WalletManager (H := simulated all_up) with_unknown_chain None in
  let with_default :=
    new_WalletManager (H := simulated all_up) with_unknown_chain
      (Some (plain_options schema_default_failOnInvalidChain)) in
  without.1 = Return tt ∧
  obj_keys (managers without.2) = ["ethereum"] ∧
  last (trace without.2) = Some (Log "warn" "Invalid chain name: not-a-chain") ∧
  with_default.1 = Throw (Error "Invalid chain name: not-a-chain") ∧
  options_failOnInvalidTokens None = schema_default_failOnInvalidTokens.
Proof. vm_compute. done. Qed.

(** S6 of the spec: the executor throws, the error reaches the caller
    and the wallet is free again. *)
Example withWallet_release_on_failure :
  (withWallet "ethereum" failing_executor None fleet).1
    = Throw (MkExn "X" "executor failed") ∧
  drop (length (trace fleet)) (trace (withWallet "ethereum" failing_executor None fleet).2)
    = [Manager "ethereum" (call_acquireLock None);
       Manager "ethereum" (call_releaseLock "0xA")] ∧
  (acquireLock "ethereum" None
     (withWallet "ethereum" failing_executor None fleet).2).1 = Return wallet_0xA.
Proof. vm_compute. done. Qed.

(** S5 of the spec, with two chains: all heights, or an error that
    names the chain whose driver failed. *)
Example blockHeight_fanout :
  (getBlockHeightForAllSupportedChains fleet).1
    = Return [("ethereum", 108); ("solana", 106)] ∧
  (getBlockHeightForAllSupportedChains fleet_solana_down).1
    = Throw (Error "No block height found for chain: solana, error: Error: connection refused").
Proof. vm_compute. done. Qed.

(** The three ways of the price feed, on two chains. *)
Example priceFeed_selection :
  let run options :=
    trace (new_WalletManager (H := simulated all_up) two_chains options).2 in
  priceFeeds_passed (run None) = [None; None] ∧
  priceFeeds_built (run (Some (priceFeed_options false (Some true)))) = [] ∧
  priceFeeds_passed (run (Some (priceFeed_options true None)))
    = [Some (OnDemandPriceFeed []); Some (OnDemandPriceFeed [])] ∧
  priceFeeds_built (run (Some (priceFeed_options true (Some true))))
    = [ScheduledPriceFeed []
         {| pf_enabled := true;
            pf_scheduled := Some {| sch_enabled := true; sch_interval := None |} |}].
Proof. vm_compute. done. Qed.

(** A 'balances' event of the solana manager, relayed with the chain's
    default network. *)
Example balances_relayed :
  emitted (trace (manager_emits "solana" (ev_balances [native_balance "So1"] []) fleet).2)
  = [bus_balances "solana" "mainnet-beta" [native_balance "So1"] []].
Proof. vm_compute. done. Qed.

Lemma unknown_chain_witness :
  obj_get "sui" (managers fleet) = None ∧
  acquireLock "sui" None fleet
    = (Throw (Error "No wallets configured for chain: sui"), fleet).
Proof.
  split; [reflexivity|].
  apply (unknown_chain_is_rejected_untouched (H := simulated all_up)
           fleet "sui" None "0xA").
  reflexivity.
Defined.

Lemma blockHeights_witness :
  NoDup (obj_keys (managers fleet)) ∧
  ∃ heights, (getBlockHeightForAllSupportedChains fleet).1 = Return heights ∧
             NoDup (obj_keys heights).
Proof.
  split; [apply (bool_decide_unpack (NoDup _)); vm_compute; exact I|].
  destruct (getBlockHeightForAllSupportedChains_all_or_nothing
              (H := simulated all_up) fleet) as [Hall _].
  { apply (bool_decide_unpack (NoDup _)). vm_compute. exact I. }
  destruct Hall as (heights & Hrun & Hnd & _).
  { intros c m Hm. unfold height_of. simpl. eexists. reflexivity. }
  exists heights. split; assumption.
Defined.

Lemma getAllBalances_witness :
  new_WalletManager (H := simulated all_up) two_chains None = (Return tt, fleet) ∧
  ∃ result, (getAllBalances fleet).1 = Return result ∧ NoDup (obj_keys result).
Proof.
  split; [vm_compute; reflexivity|].
  destruct (getAllBalances_one_entry_per_valid_chain (H := simulated all_up)
              two_chains None fleet fleet) as (result & Hrun & Hnd & _).
  - vm_compute; reflexivity.
  - reflexivity.
  - exists result. split; assumption.
Defined.

Lemma pullBalancesAtBlockHeight_witness :
  NoDup (obj_keys (managers fleet)) ∧
  snapshots (pullBalancesAtBlockHeight None fleet).2 = snapshots fleet.
Proof.
  split; [apply (bool_decide_unpack (NoDup _)); vm_compute; exact I|].
  refine (proj2 (proj2 (proj2 (proj2
            (pullBalancesAtBlockHeight_at_given_or_current_heights
               (H := simulated all_up) fleet _ _ _)))) None).
  - apply (bool_decide_unpack (NoDup _)). vm_compute. exact I.
  - intros h m. reflexivity.
  - intros m. simpl. unfold sim_getBlockHeight.
    destruct (all_up (sim_chainName m)); reflexivity.
Defined.

Lemma constructor_wiring_witness :
  new_WalletManager (H := simulated all_up) two_chains None = (Return tt, fleet) ∧
  is_Some (obj_get "solana" (managers fleet)).
Proof.
  split; [vm_compute; reflexivity|].
  refine (proj1 (constructor_wires_and_starts (H := simulated all_up)
                   two_chains None fleet _) "solana" _ _).
  - vm_compute; reflexivity.
  - apply (bool_decide_unpack (_ ∈ _)). vm_compute. exact I.
  - vm_compute; reflexivity.
Defined.

End Runs.

(** * More of the orchestrator *)

Section SingleChain.
Import WalletManager.
Context `{Imports}.
Implicit Types (this s : WalletManager) (c chainName : string).

Lemma exporter_calls_app t1 t2 :
  exporter_calls (t1 ++ t2) = exporter_calls t1 ++ exporter_calls t2.
Proof. apply omap_app. Qed.

Lemma acquireLock_present this chainName opts m :
  obj_get chainName (managers this) = Some m →
  acquireLock chainName opts this =
  ((cwm_acquireLock opts (state m)).1,
   set_trace
     (trace this ++
      Manager chainName (call_acquireLock opts) ::
      match exporter this with
      | Some _ => [Exporter match (cwm_acquireLock opts (state m)).1 with
                            | Return _ => increaseAcquiredLocks chainName
                            | Throw _ => increaseAcquireLockFailure chainName
                            end]
      | None => []
      end)
     (set_managers
        (obj_set chainName (after_method (cwm_acquireLock opts) m) (managers this))
        this)).
Proof.
  intros Hm. unfold acquireLock, bind at 1, gets, id. cbn [fst snd]. rewrite Hm.
  unfold try_catch, bind at 1. rewrite (invoke_present _ _ _ _ _ Hm).
  unfold after_method.
  destruct (cwm_acquireLock opts (state m)) as [[wallet|e] m']; cbn [fst snd];
    unfold bind, exporter_call, bind, gets, record, modify, ret, throw, id;
    cbn [fst snd exporter set_managers set_trace];
    destruct (exporter this); cbn [fst snd managers trace set_managers set_trace];
    unfold set_trace, set_managers; cbn [emitter managers exporter trace];
    by rewrite <- ?app_assoc.
Qed.

Lemma guarded_absent {R} chainName (k : M R) this :
  obj_get chainName (managers this) = None →
  (this0 <- gets id ;;
   match obj_get chainName (managers this0) with
   | None => throw (Error ("No wallets configured for chain: " +:+ chainName))
   | Some _ => k
   end) this =
  (Throw (Error ("No wallets configured for chain: " +:+ chainName)), this).
Proof. intros Hm. unfold bind, gets, id, throw; simpl. by rewrite Hm. Qed.

Lemma guarded_present {R} chainName (k : M R) this m :
  obj_get chainName (managers this) = Some m →
  (this0 <- gets id ;;
   match obj_get chainName (managers this0) with
   | None => throw (Error ("No wallets configured for chain: " +:+ chainName))
   | Some _ => k
   end) this = k this.
Proof. intros Hm. unfold bind, gets, id; simpl. by rewrite Hm. Qed.

Lemma invoke_other {R} c c' call (method : CWM → Outcome R * CWM) s :
  c' ≠ c →
  obj_get c' (managers (invoke c call method s).2) = obj_get c' (managers s).
Proof.
  intros Hne. unfold invoke. destruct (obj_get c (managers s)) as [m|]; [|done].
  destruct (method (state m)); simpl. by rewrite obj_get_set_ne.
Qed.

(** [acquireLock] on a managed chain asks that chain's manager once,
    returns the wallet it grants or throws the error it throws, as it
    is, and counts the outcome on the exporter when there is one:
    [increaseAcquiredLocks] for a grant, [increaseAcquireLockFailure]
    for a failure. *)
Theorem acquireLock_counts_the_outcome this chainName opts m :
  obj_get chainName (managers this) = Some m →
  let granted := cwm_acquireLock opts (state m) in
  let after := (acquireLock chainName opts this).2 in
  (acquireLock chainName opts this).1 = granted.1 ∧
  managers after =
    obj_set chainName (after_method (cwm_acquireLock opts) m) (managers this) ∧
  trace after =
    trace this ++
    Manager chainName (call_acquireLock opts) ::
    match exporter this with
    | Some _ => [Exporter match granted.1 with
                          | Return _ => increaseAcquiredLocks chainName
                          | Throw _ => increaseAcquireLockFailure chainName
                          end]
    | None => []
    end.
Proof.
  intros Hm granted after. subst granted after.
  by rewrite (acquireLock_present _ _ _ _ Hm).
Qed.

(** The four operations on one chain leave the manager of every other
    chain as it is, and add or remove no manager. *)
Theorem single_chain_calls_leave_other_managers this chainName c' opts address :
  c' ≠ chainName →
  let untouched (after : WalletManager) :=
    obj_get c' (managers after) = obj_get c' (managers this) ∧
    obj_keys (managers after) = obj_keys (managers this) in
  untouched (acquireLock chainName opts this).2 ∧
  untouched (releaseLock chainName address this).2 ∧
  untouched (getBlockHeight chainName this).2 ∧
  untouched (getChainBalances chainName this).2.
Proof.
  intros Hne untouched. subst untouched. cbv beta.
  destruct (obj_get chainName (managers this)) as [m|] eqn:Hm.
  - assert (Hin : chainName ∈ obj_keys (managers this))
      by (apply obj_get_is_Some; by rewrite Hm).
    rewrite (acquireLock_present _ _ _ _ Hm).
    unfold releaseLock, getBlockHeight, getChainBalances.
    rewrite !(guarded_present _ _ _ _ Hm).
    cbn [snd managers set_trace set_managers].
    rewrite obj_get_set_ne by done. rewrite obj_keys_set_present by done.
    rewrite !invoke_keys. rewrite !invoke_other by done. done.
  - unfold acquireLock, releaseLock, getBlockHeight, getChainBalances.
    by rewrite !(guarded_absent _ _ _ Hm).
Qed.

(** [validateBlockHeightByChain] changes nothing; it returns when every
    key of the record has a manager (an empty record passes), and
    otherwise throws for the first key that has none. *)
Theorem validateBlockHeightByChain_first_unknown heights this :
  (validateBlockHeightByChain heights this).2 = this ∧
  ((validateBlockHeightByChain heights this).1 = Return tt ↔
   ∀ c, c ∈ obj_keys heights → c ∈ obj_keys (managers this)) ∧
  (∀ e, (validateBlockHeightByChain heights this).1 = Throw e →
        ∃ known c rest,
          obj_keys heights = known ++ (c :: rest) ∧
          (∀ k, k ∈ known → k ∈ obj_keys (managers this)) ∧
          (c ∉ obj_keys (managers this)) ∧
          e = Error ("No wallets configured for chain: " +:+ c)).
Proof.
  split; [apply validateBlockHeightByChain_state|].
  unfold validateBlockHeightByChain.
  induction (obj_keys heights) as [|c cs [IHok IHerr]].
  { split; [split; [by intros _ k ?%elem_of_nil|done]|]. by intros e [=]. }
  rewrite for_of_cons. unfold bind at 1 3, gets, id. cbn [fst snd].
  destruct (obj_get c (managers this)) as [m|] eqn:Hc; cbn [fst snd ret throw].
  - assert (Hin : c ∈ obj_keys (managers this))
      by (apply obj_get_is_Some; by rewrite Hc).
    split.
    + rewrite IHok. split.
      * intros Hall k [->|Hk]%elem_of_cons; auto.
      * intros Hall k Hk. apply Hall. by right.
    + intros e He. destruct (IHerr e He) as (known & c0 & rest & -> & Hknown & Hc0 & ->).
      exists (c :: known), c0, rest. split_and!; [done| |done|done].
      intros k [->|Hk]%elem_of_cons; auto.
  - apply obj_get_None in Hc. split.
    + split; [done|]. intros Hall. exfalso. apply Hc, Hall. left.
    + intros e [= <-]. exists [], c, cs. split_and!; [done| |done|done].
      by intros k ?%elem_of_nil.
Qed.

(** On a managed chain [releaseLock] and [getBlockHeight] are the chain
    manager's own call: its outcome is passed on as it is (an error is
    not wrapped) and nothing is counted on the exporter. *)
Theorem releaseLock_getBlockHeight_pass_through this chainName address m :
  obj_get chainName (managers this) = Some m →
  (releaseLock chainName address this).1 = (cwm_releaseLock address (state m)).1 ∧
  managers (releaseLock chainName address this).2 =
    obj_set chainName (after_method (cwm_releaseLock address) m) (managers this) ∧
  trace (releaseLock chainName address this).2 =
    trace this ++ [Manager chainName (call_releaseLock address)] ∧
  (getBlockHeight chainName this).1 = (cwm_getBlockHeight (state m)).1 ∧
  managers (getBlockHeight chainName this).2 =
    obj_set chainName (after_method cwm_getBlockHeight m) (managers this) ∧
  trace (getBlockHeight chainName this).2 =
    trace this ++ [Manager chainName call_getBlockHeight].
Proof.
  intros Hm. unfold releaseLock, getBlockHeight.
  rewrite !(guarded_present _ _ _ _ Hm), !(invoke_present _ _ _ _ _ Hm). done.
Qed.

(** When [acquireLock] fails, for a chain without manager or because
    the chain's manager grants no wallet, [withWallet] fails with the
    same error and leaves what [acquireLock] left: the executor is not
    run and nothing is released; the manager, when there is one, was
    asked once, and the failure counted once on the exporter, when there
    is one. *)
Theorem withWallet_without_a_lock this chainName (fn : WithWalletExecutor) opts e :
  (acquireLock chainName opts this).1 = Throw e →
  withWallet chainName fn opts this = (Throw e, (acquireLock chainName opts this).2) ∧
  manager_calls (trace (withWallet chainName fn opts this).2) =
    manager_calls (trace this) ++
    match obj_get chainName (managers this) with
    | Some _ => [(chainName, call_acquireLock opts)]
    | None => []
    end ∧
  exporter_calls (trace (withWallet chainName fn opts this).2) =
    exporter_calls (trace this) ++
    match obj_get chainName (managers this), exporter this with
    | Some _, Some _ => [increaseAcquireLockFailure chainName]
    | _, _ => []
    end.
Proof.
  intros Hfail.
  assert (Hwith : withWallet chainName fn opts this =
                  (Throw e, (acquireLock chainName opts this).2)).
  { unfold withWallet, bind.
    destruct (acquireLock chainName opts this) as [[w|e'] s1]; [done|].
    cbn [fst snd] in *. congruence. }
  rewrite Hwith. split; [done|]. cbn [snd].
  destruct (obj_get chainName (managers this)) as [m|] eqn:Hm.
  - rewrite (acquireLock_present _ _ _ _ Hm) in Hfail |- *. cbn [fst snd] in *.
    cbn [trace set_trace]. unfold manager_calls at 1.
    rewrite exporter_calls_app, omap_app. rewrite Hfail.
    destruct (exporter this); cbn; by rewrite ?app_nil_r.
  - unfold acquireLock. rewrite (guarded_absent _ _ _ Hm). cbn [snd].
    by rewrite !app_nil_r.
Qed.

(** C1 (amended): [withWallet] takes the wallet from the chain
    manager's [acquireLock], to which [opts] goes as it is,
    [leaseTimeout] included.  With the lock granted it runs [fn] on the
    wallet and then, whether [fn] returned or threw, calls the chain
    manager's [releaseLock] for the wallet's address: the manager is
    left in the state its own [releaseLock] leaves, that call is the
    last one made, and nothing else changes after [fn].  When the
    release returns, the outcome is the outcome of [fn]: what [fn]
    throws reaches the caller as it is.  When the release itself throws,
    its error is the outcome, in place of what [fn] returned or threw.
    Nothing after the acquisition refers to [opts]. *)
Theorem withWallet_releases_on_every_exit
  this chainName (fn : WithWalletExecutor) opts wallet locked m :
  acquireLock chainName opts this = (Return wallet, locked) →
  let after_fn := fn wallet locked in
  obj_get chainName (managers after_fn.2) = Some m →
  let address := wallet_address wallet in
  let release := cwm_releaseLock address (state m) in
  let result := withWallet chainName fn opts this in
  (∃ m0, obj_get chainName (managers this) = Some m0 ∧
         (cwm_acquireLock opts (state m0)).1 = Return wallet ∧
         managers locked =
           obj_set chainName (after_method (cwm_acquireLock opts) m0) (managers this)) ∧
  result.1 = match release.1 with
             | Return _ => after_fn.1
             | Throw e => Throw e
             end ∧
  managers result.2 =
    obj_set chainName (after_method (cwm_releaseLock address) m) (managers after_fn.2) ∧
  trace result.2 = trace after_fn.2 ++ [Manager chainName (call_releaseLock address)] ∧
  emitter result.2 = emitter after_fn.2 ∧
  exporter result.2 = exporter after_fn.2.
Proof.
  intros Hacq after_fn Hm address release result.
  subst after_fn address release result. split.
  - destruct (obj_get chainName (managers this)) as [m0|] eqn:Hm0.
    + exists m0. rewrite (acquireLock_present _ _ _ _ Hm0) in Hacq.
      injection Hacq as Hgrant <-. by split_and!.
    + unfold acquireLock in Hacq. by rewrite (guarded_absent _ _ _ Hm0) in Hacq.
  - unfold withWallet, bind, try_finally. rewrite Hacq.
    destruct (fn wallet locked) as [r s1]. cbn [fst snd] in *.
    rewrite (releaseLock_present _ _ _ _ Hm), (invoke_present _ _ _ _ _ Hm).
    unfold after_method.
    by destruct (cwm_releaseLock (wallet_address wallet) (state m)) as [[[]|e] st].
Qed.

End SingleChain.

Section WholeFleet.
Import WalletManager.
Context `{Imports}.
Implicit Types (this s : WalletManager) (c chainName : string).

(** The state of the managers after a fanout in which every call
    returned: each manager is what its own call left. *)
Lemma collect_states {R} (call : string → ManagerCall)
  (method : string → CWM → Outcome R * CWM) (wrap : string → Exn → Exn)
  (f : string → obj R → M (obj R)) ks acc s :
  (∀ c acc s, f c acc s =
     match invoke c (call c) (method c) s with
     | (Return r, s') => (Return (obj_set c r acc), s')
     | (Throw e, s') => (Throw (wrap c e), s')
     end) →
  NoDup ks →
  (∀ c, c ∈ ks → ∃ m r,
     obj_get c (managers s) = Some m ∧ (method c (state m)).1 = Return r) →
  (∀ c m, c ∈ ks → obj_get c (managers s) = Some m →
     obj_get c (managers (run_mappers ks f acc s).2) = Some (after_method (method c) m)) ∧
  (∀ c, c ∉ ks →
     obj_get c (managers (run_mappers ks f acc s).2) = obj_get c (managers s)) ∧
  manager_calls (trace (run_mappers ks f acc s).2) =
    manager_calls (trace s) ++ map (fun c => (c, call c)) ks.
Proof.
  intros Hf Hnd. revert acc s.
  induction Hnd as [|c ks Hc Hnd IH]; intros acc s Hok.
  { simpl. split_and!; [by intros c m ?%elem_of_nil|done|by rewrite app_nil_r]. }
  destruct (Hok c) as (m & r & Hm & Hr); [left|].
  simpl. unfold bind. rewrite Hf, (invoke_present _ _ _ _ _ Hm), Hr.
  set (s1 := set_managers _ _).
  assert (Hother : ∀ c', c' ≠ c → obj_get c' (managers s1) = obj_get c' (managers s)).
  { intros c' Hne. subst s1; simpl. by rewrite obj_get_set_ne. }
  destruct (IH (obj_set c r acc) s1) as (Hin & Hout & Hcalls).
  { intros c' Hc'. destruct (Hok c') as (m' & r' & Hm' & Hr'); [by right|].
    exists m', r'. split; [|done]. rewrite Hother; [done|]. intros ->. done. }
  split_and!.
  - intros c' m' [->|Hc']%elem_of_cons Hm'.
    + rewrite Hout by done. subst s1; simpl. rewrite obj_get_set_eq.
      rewrite Hm in Hm'. by injection Hm' as <-.
    + apply Hin; [done|]. rewrite Hother; [done|]. intros ->. done.
  - intros c' Hc'. apply not_elem_of_cons in Hc' as [Hne Hc'].
    rewrite Hout by done. by apply Hother.
  - rewrite Hcalls. subst s1. simpl. unfold manager_calls. rewrite omap_app. simpl.
    by rewrite <- app_assoc.
Qed.

(** [pullBalances]: the keys of [managers] being distinct, when every
    manager's refresh returns, the result has one entry per managed
    chain, holding what that manager's [pullBalances] returned, each
    manager was asked once, in the order of the keys, and is left as
    its own refresh left it; when a refresh fails, the call fails with
    that manager's error as it is, the chain's name not added. *)
Theorem pullBalances_refreshes_every_chain this :
  NoDup (obj_keys (managers this)) →
  let pulled m := (cwm_pullBalances (state m)).1 in
  ((∀ c m, obj_get c (managers this) = Some m → ∃ b, pulled m = Return b) →
   ∃ result,
     (pullBalances this).1 = Return result ∧
     (∀ c, c ∈ obj_keys result ↔ c ∈ obj_keys (managers this)) ∧
     (∀ c m, obj_get c (managers this) = Some m →
        ∃ b, pulled m = Return b ∧ obj_get c result = Some b ∧
             obj_get c (managers (pullBalances this).2) =
             Some (after_method cwm_pullBalances m)) ∧
     manager_calls (trace (pullBalances this).2) =
       manager_calls (trace this) ++
       map (fun c => (c, call_pullBalances)) (obj_keys (managers this))) ∧
  ((∃ c m e, obj_get c (managers this) = Some m ∧ pulled m = Throw e) →
   ∃ c m e, obj_get c (managers this) = Some m ∧ pulled m = Throw e ∧
            (pullBalances this).1 = Throw e).
Proof.
  intros Hnd pulled. subst pulled. cbv beta.
  unfold pullBalances. rewrite mapToChains_unfold, mapConcurrent_unfold.
  set (s0 := set_trace _ this).
  pose proof (fun c acc s =>
    plain_mapper_shape call_pullBalances cwm_pullBalances c acc s) as Hshape.
  split.
  - intros Hok.
    assert (Hok' : ∀ c, c ∈ obj_keys (managers this) → ∃ m r,
      obj_get c (managers s0) = Some m ∧ (cwm_pullBalances (state m)).1 = Return r).
    { intros c [m Hm]%obj_get_is_Some. destruct (Hok c m Hm) as [b Hb]. eauto. }
    destruct (collect_all (fun _ => call_pullBalances) (fun _ => cwm_pullBalances)
                (fun _ e => e) _ Hshape (obj_keys (managers this)) [] s0 Hnd Hok')
      as (result & Hrun & Hkeys & Hval & _ & _).
    destruct (collect_states (fun _ => call_pullBalances) (fun _ => cwm_pullBalances)
                (fun _ e => e)
                (fun chainName result =>
                   r <- invoke chainName call_pullBalances cwm_pullBalances ;;
                   ret (obj_set chainName r result))
                (obj_keys (managers this)) [] s0 Hshape Hnd Hok')
      as (Hst & _ & Hcalls).
    exists result. split_and!; [done| | |].
    + intros c. rewrite Hkeys. split; [|by right]. by intros [[]%elem_of_nil|?].
    + intros c m Hm.
      assert (Hc : c ∈ obj_keys (managers this)) by (apply obj_get_is_Some; by rewrite Hm).
      destruct (Hval c m Hc Hm) as (b & Hb & Hres). exists b. split_and!; [done|done|].
      by apply Hst.
    + rewrite Hcalls. subst s0. simpl. unfold manager_calls at 1.
      rewrite omap_app. simpl. by rewrite app_nil_r.
  - intros (c & m & e & Hm & He).
    destruct (collect_first_error (fun _ => call_pullBalances)
                (fun _ => cwm_pullBalances) (fun _ e => e) _ Hshape
                (obj_keys (managers this)) [] s0 Hnd)
      as (c' & m' & e' & _ & Hm' & He' & Hrun).
    { intros c0 Hc0. by apply obj_get_is_Some. }
    { exists c, m, e. split_and!; [|done|done]. apply obj_get_is_Some. by rewrite Hm. }
    exists c', m', e'. done.
Qed.

(** A single chain read with [getChainBalances] is the entry of that
    chain in [getAllBalances], and a chain [getAllBalances] has no entry
    for is one [getChainBalances] rejects. *)
Theorem getChainBalances_is_the_entry_of_getAllBalances this :
  NoDup (obj_keys (managers this)) →
  ∃ result,
    (getAllBalances this).1 = Return result ∧
    ∀ c, (getChainBalances c this).1 =
         match obj_get c result with
         | Some balances => Return balances
         | None => Throw (Error ("No wallets configured for chain: " +:+ c))
         end.
Proof.
  intros Hnd.
  unfold getAllBalances. rewrite mapToChains_unfold, mapConcurrent_unfold.
  set (s0 := set_trace _ this).
  pose proof (fun c acc s =>
    plain_mapper_shape call_getBalances
      (fun m => (Return (cwm_getBalances m), m)) c acc s) as Hshape.
  destruct (collect_all (fun _ => call_getBalances)
              (fun _ m => (Return (cwm_getBalances m), m))
              (fun _ e => e) _ Hshape (obj_keys (managers this)) [] s0 Hnd)
    as (result & Hrun & Hres & Hval & _ & _).
  { intros c [m Hm]%obj_get_is_Some. by exists m, (cwm_getBalances (state m)). }
  exists result. split; [done|]. intros c. unfold getChainBalances.
  destruct (obj_get c (managers this)) as [m|] eqn:Hm.
  - rewrite (guarded_present _ _ _ _ Hm), (invoke_present _ _ _ _ _ Hm).
    assert (Hc : c ∈ obj_keys (managers this)) by (apply obj_get_is_Some; by rewrite Hm).
    destruct (Hval c m Hc Hm) as (b & [= <-] & ->). done.
  - rewrite (guarded_absent _ _ _ Hm).
    assert (Hnone : obj_get c result = None).
    { apply obj_get_None. rewrite Hres. apply obj_get_None in Hm.
      by intros [[]%elem_of_nil|?]. }
    by rewrite Hnone.
Qed.

Lemma stop_loop ks s :
  NoDup ks →
  (∀ c, c ∈ ks → is_Some (obj_get c (managers s))) →
  let stopped :=
    for_of ks (fun c => invoke c call_stop (fun m => (Return tt, cwm_stop m))) s in
  stopped.1 = Return tt ∧
  trace stopped.2 = trace s ++ map (fun c => Manager c call_stop) ks ∧
  (∀ c m, c ∈ ks → obj_get c (managers s) = Some m →
     obj_get c (managers stopped.2) =
     Some {| listeners := listeners m; state := cwm_stop (state m) |}) ∧
  (∀ c, c ∉ ks → obj_get c (managers stopped.2) = obj_get c (managers s)) ∧
  obj_keys (managers stopped.2) = obj_keys (managers s) ∧
  emitter stopped.2 = emitter s ∧ exporter stopped.2 = exporter s.
Proof.
  intros Hnd. revert s. induction Hnd as [|c ks Hc Hnd IH]; intros s Hall; cbv zeta.
  { simpl. rewrite app_nil_r. split_and!; try done. by intros c m ?%elem_of_nil. }
  destruct (Hall c) as [m Hm]; [left|].
  rewrite for_of_cons, (invoke_present _ _ _ _ _ Hm). cbn [fst snd].
  set (s1 := set_managers _ _).
  assert (Hother : ∀ c', c' ≠ c → obj_get c' (managers s1) = obj_get c' (managers s)).
  { intros c' Hne. subst s1; simpl. by rewrite obj_get_set_ne. }
  destruct (IH s1) as (Hout & Htrace & Hin & Hrest & Hkeys & Hem & Hex).
  { intros c' Hc'. rewrite Hother; [apply Hall; by right|]. intros ->. done. }
  split_and!.
  - done.
  - rewrite Htrace. subst s1. simpl. by rewrite <- app_assoc.
  - intros c' m' [->|Hc']%elem_of_cons Hm'.
    + rewrite Hrest by done. subst s1; simpl. rewrite obj_get_set_eq.
      rewrite Hm in Hm'. by injection Hm' as <-.
    + apply Hin; [done|]. rewrite Hother; [done|]. intros ->. done.
  - intros c' Hc'. apply not_elem_of_cons in Hc' as [Hne Hc'].
    rewrite Hrest by done. by apply Hother.
  - rewrite Hkeys. subst s1; simpl. apply obj_keys_set_present, obj_get_is_Some.
    by rewrite Hm.
  - by rewrite Hem.
  - by rewrite Hex.
Qed.

(** [stop]: the keys of [managers] being distinct, every manager is
    stopped once, in the order of the keys, and nothing else happens:
    the call returns (a manager's [stop] is taken to return), no manager
    is removed, the exporter and the bus stay as they are. *)
Theorem stop_stops_every_manager this :
  NoDup (obj_keys (managers this)) →
  (stop this).1 = Return tt ∧
  trace (stop this).2 =
    trace this ++ map (fun c => Manager c call_stop) (obj_keys (managers this)) ∧
  (∀ c m, obj_get c (managers this) = Some m →
     obj_get c (managers (stop this).2) =
     Some {| listeners := listeners m; state := cwm_stop (state m) |}) ∧
  obj_keys (managers (stop this).2) = obj_keys (managers this) ∧
  emitter (stop this).2 = emitter this ∧
  exporter (stop this).2 = exporter this.
Proof.
  intros Hnd.
  destruct (stop_loop (obj_keys (managers this)) this Hnd)
    as (Hout & Htrace & Hin & _ & Hkeys & Hem & Hex).
  { intros c Hc. by apply obj_get_is_Some. }
  unfold stop, bind, gets, id. cbn [fst snd].
  split_and!; try done.
  intros c m Hm. apply Hin; [|done]. apply obj_get_is_Some. by rewrite Hm.
Qed.

(** With no manager at all, every fanout returns the empty record and
    calls no manager, [pullBalancesAtBlockHeight] doing so without a
    height record and with an empty one; given a record that has a key,
    it throws for the first key and changes nothing;
    [getBlockHeightForAllSupportedChains] hands the bound 0 to
    [mapConcurrent]. *)
Theorem fanouts_of_an_empty_fleet this :
  managers this = [] →
  (getAllBalances this).1 = Return [] ∧
  (pullBalances this).1 = Return [] ∧
  (getBlockHeightForAllSupportedChains this).1 = Return [] ∧
  (pullBalancesAtBlockHeight None this).1 = Return [] ∧
  (pullBalancesAtBlockHeight (Some []) this).1 = Return [] ∧
  (stop this).1 = Return tt ∧
  manager_calls (trace (pullBalancesAtBlockHeight None this).2) =
    manager_calls (trace this) ∧
  concurrency_bounds (trace (getBlockHeightForAllSupportedChains this).2) =
    concurrency_bounds (trace this) ++ [Some 0] ∧
  (∀ c h rest,
     pullBalancesAtBlockHeight (Some ((c, h) :: rest)) this =
     (Throw (Error ("No wallets configured for chain: " +:+ c)), this)).
Proof.
  intros Hnone. destruct this as [em ms ex tr]. simpl in Hnone. subst ms.
  unfold manager_calls, concurrency_bounds. cbn. rewrite !omap_app. cbn.
  rewrite !app_nil_r. split_and!; try done.
Qed.







End WholeFleet.

Section ConstructionOutcome.
Import WalletManager.
Context `{Imports}.
Implicit Types (this s : WalletManager) (c chainName : string).

Lemma for_of_app {S T} (body : T → Eff S unit) xs ys (st : S) :
  for_of (xs ++ ys) body st =
  match for_of xs body st with
  | (Return _, t) => for_of ys body t
  | (Throw e, t) => (Throw e, t)
  end.
Proof.
  revert st. induction xs as [|x xs IH]; intros st; [done|].
  rewrite <- app_comm_cons, !for_of_cons.
  destruct (body x st) as [[[]|e] t]; [apply IH|done].
Qed.

Lemma manager_calls_app t1 t2 :
  manager_calls (t1 ++ t2) = manager_calls t1 ++ manager_calls t2.
Proof. apply omap_app. Qed.

Lemma chains_constructed_app t1 t2 :
  chains_constructed (t1 ++ t2) = chains_constructed t1 ++ chains_constructed t2.
Proof. apply omap_app. Qed.

Lemma warnings_app t1 t2 : warnings (t1 ++ t2) = warnings t1 ++ warnings t2.
Proof. apply omap_app. Qed.

(** One turn of the loop on an entry that does not stop the
    constructor. *)
Lemma construct_chain_passes options pf entry s :
  entry_error options pf entry = None →
  let after := (construct_chain options pf entry s).2 in
  (construct_chain options pf entry s).1 = Return tt ∧
  manager_calls (trace after) =
    manager_calls (trace s) ++
    (if isChain entry.1 then [(entry.1, call_start)] else []) ∧
  chains_constructed (trace after) =
    chains_constructed (trace s) ++ (if isChain entry.1 then [entry.1] else []) ∧
  warnings (trace after) =
    warnings (trace s) ++
    (if isChain entry.1 then [] else ["Invalid chain name: " +:+ entry.1]).
Proof.
  destruct entry as [c chainCfg]. unfold entry_error. cbn [fst snd]. intros Herr. cbv zeta.
  destruct (isChain c) eqn:Hc.
  - rewrite construct_chain_valid by done. cbv zeta.
    destruct (cwm_new _ (wallets chainCfg) pf) as [m0|e]; [|done].
    cbn [fst snd trace set_managers set_trace].
    rewrite manager_calls_app, chains_constructed_app, warnings_app. cbn.
    by rewrite app_nil_r.
  - rewrite construct_chain_invalid by done.
    destruct (options_failOnInvalidChain options); [done|].
    cbn [fst snd trace set_managers set_trace].
    rewrite manager_calls_app, chains_constructed_app, warnings_app. cbn.
    by rewrite !app_nil_r.
Qed.

(** One turn of the loop on an entry that stops the constructor. *)
Lemma construct_chain_fails options pf entry s e :
  entry_error options pf entry = Some e →
  let after := (construct_chain options pf entry s).2 in
  (construct_chain options pf entry s).1 = Throw e ∧
  managers after = managers s ∧
  manager_calls (trace after) = manager_calls (trace s) ∧
  chains_constructed (trace after) =
    chains_constructed (trace s) ++ (if isChain entry.1 then [entry.1] else []) ∧
  warnings (trace after) = warnings (trace s).
Proof.
  destruct entry as [c chainCfg]. unfold entry_error. cbn [fst snd]. intros Herr. cbv zeta.
  destruct (isChain c) eqn:Hc.
  - rewrite construct_chain_valid by done. cbv zeta.
    destruct (cwm_new _ (wallets chainCfg) pf) as [m0|e']; [done|].
    injection Herr as ->. cbn [fst snd trace managers set_managers set_trace].
    rewrite manager_calls_app, chains_constructed_app, warnings_app. cbn.
    by rewrite !app_nil_r.
  - rewrite construct_chain_invalid by done.
    destruct (options_failOnInvalidChain options); [|done].
    injection Herr as <-. cbn [fst snd]. by rewrite app_nil_r.
Qed.

Lemma filter_valid_cons (c : string) (cs : list string) :
  filter (fun k => isChain k = true) (c :: cs) =
  (if isChain c then [c] else []) ++ filter (fun k => isChain k = true) cs.
Proof.
  destruct (isChain c) eqn:Hc.
  - by rewrite filter_cons_True.
  - rewrite filter_cons_False; [done|]. by rewrite Hc.
Qed.

Lemma filter_invalid_cons (c : string) (cs : list string) :
  filter (fun k => isChain k = false) (c :: cs) =
  (if isChain c then [] else [c]) ++ filter (fun k => isChain k = false) cs.
Proof.
  destruct (isChain c) eqn:Hc.
  - rewrite filter_cons_False; [done|]. by rewrite Hc.
  - by rewrite filter_cons_True.
Qed.

(** The loop over entries none of which stops the constructor. *)
Lemma construct_loop_passes options pf entries s :
  (∀ b, b ∈ entries → entry_error options pf b = None) →
  let after := (for_of entries (construct_chain options pf) s).2 in
  (for_of entries (construct_chain options pf) s).1 = Return tt ∧
  manager_calls (trace after) =
    manager_calls (trace s) ++
    map (fun c => (c, call_start)) (filter (fun k => isChain k = true) (obj_keys entries)) ∧
  chains_constructed (trace after) =
    chains_constructed (trace s) ++ filter (fun k => isChain k = true) (obj_keys entries) ∧
  warnings (trace after) =
    warnings (trace s) ++
    map (fun c => "Invalid chain name: " +:+ c)
        (filter (fun k => isChain k = false) (obj_keys entries)).
Proof.
  revert s. induction entries as [|entry entries IH]; intros s Hpass; cbv zeta.
  { cbn. by rewrite !app_nil_r. }
  destruct (construct_chain_passes options pf entry s) as (Hout & Hcalls & Hbuilt & Hwarn);
    [apply Hpass; left|].
  rewrite for_of_cons.
  destruct (construct_chain options pf entry s) as [[[]|e] s1]; [|done].
  cbn [fst snd] in *.
  destruct (IH s1) as (Hout' & Hcalls' & Hbuilt' & Hwarn').
  { intros b Hb. apply Hpass. by right. }
  change (obj_keys (entry :: entries)) with (entry.1 :: obj_keys entries).
  rewrite filter_valid_cons, filter_invalid_cons, !map_app.
  rewrite Hcalls', Hbuilt', Hwarn', Hcalls, Hbuilt, Hwarn, <- !app_assoc.
  split_and!; [done| | |]; repeat f_equal; by destruct (isChain entry.1).
Qed.

Lemma build_exporter_exact options :
  ∃ logged,
    build_exporter options fresh =
    (Return tt, set_exporter (selected_exporter options) (set_trace logged fresh)) ∧
    exporter_calls logged =
      match options ≫= metrics with
      | Some m => if metrics_enabled m
                  then match metrics_serve m with
                       | Some true => [startMetricsServer]
                       | _ => []
                       end
                  else []
      | None => []
      end ∧
    manager_calls logged = [] ∧ chains_constructed logged = [] ∧
    warnings logged = [] ∧ emitted logged = [].
Proof.
  unfold build_exporter, selected_exporter.
  destruct (options ≫= metrics) as [m|]; [|by exists []].
  destruct (metrics_enabled m); [|by exists []].
  destruct (metrics_serve m) as [[]|]; eexists; (split; [reflexivity|done]).
Qed.

Lemma constructor_unfold config options :
  ∃ s0, new_WalletManager config options =
        for_of config (construct_chain options (selected_priceFeed config options)) s0 ∧
        managers s0 = [] ∧
        manager_calls (trace s0) = [] ∧ chains_constructed (trace s0) = [] ∧
        warnings (trace s0) = [] ∧
        exporter s0 = selected_exporter options ∧
        exporter_calls (trace s0) =
          match options ≫= metrics with
          | Some m => if metrics_enabled m
                      then match metrics_serve m with
                           | Some true => [startMetricsServer]
                           | _ => []
                           end
                      else []
          | None => []
          end.
Proof.
  unfold new_WalletManager, constructor. unfold bind at 1.
  destruct (build_exporter_exact options) as (logged & -> & Hx & Hm & Hb & Hw & _).
  unfold bind at 1. rewrite build_priceFeed_state. eexists. split; [done|].
  cbn [managers exporter trace set_trace set_exporter fresh].
  rewrite manager_calls_app, chains_constructed_app, warnings_app, exporter_calls_app.
  rewrite Hx, Hm, Hb, Hw.
  destruct (selected_priceFeed config options); cbn; by rewrite ?app_nil_r.
Qed.

(** A turn of the loop leaves the exporter and the calls made to it as
    they are. *)
Lemma construct_chain_exporter options pf entry s :
  exporter (construct_chain options pf entry s).2 = exporter s ∧
  exporter_calls (trace (construct_chain options pf entry s).2) = exporter_calls (trace s).
Proof.
  destruct entry as [c chainCfg]. destruct (isChain c) eqn:Hc.
  - rewrite construct_chain_valid by done. cbv zeta.
    destruct (cwm_new _ (wallets chainCfg) pf) as [m0|e];
      cbn [fst snd exporter trace set_managers set_trace];
      rewrite exporter_calls_app; cbn; by rewrite app_nil_r.
  - rewrite construct_chain_invalid by done.
    destruct (options_failOnInvalidChain options); [done|].
    cbn [fst snd exporter trace set_managers set_trace].
    rewrite exporter_calls_app. cbn. by rewrite app_nil_r.
Qed.

(** The constructor fails at the first entry of the configuration that
    fails (an unknown chain name under [failOnInvalidChain], or a
    [ChainWalletManager] whose construction throws), with that entry's
    error.  The valid chains before it have been built and started and
    stay so: no manager is stopped.  The entries after it are not
    looked at: no manager is built for them. *)
Theorem constructor_stops_at_the_first_failing_entry config options before entry rest e :
  config = before ++ entry :: rest →
  (∀ b, b ∈ before → entry_error options (selected_priceFeed config options) b = None) →
  entry_error options (selected_priceFeed config options) entry = Some e →
  let this := (new_WalletManager config options).2 in
  (new_WalletManager config options).1 = Throw e ∧
  (∀ c, c ∈ obj_keys (managers this) ↔ c ∈ obj_keys before ∧ isChain c = true) ∧
  manager_calls (trace this) =
    map (fun c => (c, call_start)) (filter (fun k => isChain k = true) (obj_keys before)) ∧
  chains_constructed (trace this) =
    filter (fun k => isChain k = true) (obj_keys (before ++ [entry])).
Proof.
  intros Hconfig Hbefore Hentry this. subst this.
  destruct (constructor_unfold config options) as (s0 & -> & Hm0 & Hc0 & Hb0 & _ & _ & _).
  set (pf := selected_priceFeed config options) in *.
  rewrite Hconfig, for_of_app.
  destruct (construct_loop_passes options pf before s0 Hbefore) as (Hout & Hcalls & Hbuilt & _).
  pose proof (construct_loop_keys options pf before s0) as Hkeys.
  destruct (for_of before (construct_chain options pf) s0) as [[[]|e'] s1]; [|done].
  cbn [fst snd] in *. specialize (Hkeys s1 eq_refl).
  rewrite for_of_cons.
  destruct (construct_chain_fails options pf entry s1 e Hentry)
    as (Hfail & Hsame & Hcalls' & Hbuilt' & _).
  destruct (construct_chain options pf entry s1) as [[[]|e''] s2]; [done|].
  cbn [fst snd] in *. split_and!.
  - done.
  - intros c. rewrite Hsame, Hkeys, Hm0. split; [|by right].
    by intros [[]%elem_of_nil|?].
  - by rewrite Hcalls', Hcalls, Hc0.
  - rewrite Hbuilt', Hbuilt, Hb0. cbn [app].
    unfold obj_keys. rewrite map_app, filter_app. f_equal.
    cbn [map]. rewrite filter_valid_cons. cbn. by rewrite app_nil_r.
Qed.

(** When no entry of the configuration fails, the constructor returns:
    a manager was built and then started for every valid chain name, in
    the order of the configuration, and one warning was logged for every
    unknown chain name. *)
Theorem constructor_returns_when_no_entry_fails config options :
  (∀ b, b ∈ config → entry_error options (selected_priceFeed config options) b = None) →
  let this := (new_WalletManager config options).2 in
  (new_WalletManager config options).1 = Return tt ∧
  (∀ c, c ∈ obj_keys (managers this) ↔ c ∈ obj_keys config ∧ isChain c = true) ∧
  manager_calls (trace this) =
    map (fun c => (c, call_start)) (filter (fun k => isChain k = true) (obj_keys config)) ∧
  chains_constructed (trace this) = filter (fun k => isChain k = true) (obj_keys config) ∧
  warnings (trace this) =
    map (fun c => "Invalid chain name: " +:+ c)
        (filter (fun k => isChain k = false) (obj_keys config)).
Proof.
  intros Hpass this. subst this.
  destruct (constructor_unfold config options) as (s0 & -> & Hm0 & Hc0 & Hb0 & Hw0 & _ & _).
  set (pf := selected_priceFeed config options) in *.
  destruct (construct_loop_passes options pf config s0 Hpass)
    as (Hout & Hcalls & Hbuilt & Hwarn).
  pose proof (construct_loop_keys options pf config s0) as Hkeys.
  destruct (for_of config (construct_chain options pf) s0) as [[[]|e'] s1]; [|done].
  cbn [fst snd] in *. specialize (Hkeys s1 eq_refl).
  split_and!; [done| | | |].
  - intros c. rewrite Hkeys, Hm0. split; [|by right]. by intros [[]%elem_of_nil|?].
  - by rewrite Hcalls, Hc0.
  - by rewrite Hbuilt, Hb0.
  - by rewrite Hwarn, Hw0.
Qed.

(** Whether the constructor returns or throws: the orchestrator has an
    exporter exactly when [options.metrics.enabled] is set, built from
    the port, path and registry of the metrics options, and the only
    call made to it is [startMetricsServer], once, when [metrics.serve]
    is set as well. *)
Theorem constructor_builds_the_exporter_the_options_ask_for config options :
  let this := (new_WalletManager config options).2 in
  exporter this = selected_exporter options ∧
  exporter_calls (trace this) =
    match options ≫= metrics with
    | Some m => if metrics_enabled m
                then match metrics_serve m with
                     | Some true => [startMetricsServer]
                     | _ => []
                     end
                else []
    | None => []
    end.
Proof.
  cbv zeta.
  destruct (constructor_unfold config options) as (s0 & -> & _ & _ & _ & _ & He & Hx).
  rewrite <- He, <- Hx.
  apply (for_of_keeps (fun s => exporter s = exporter s0 ∧
                                exporter_calls (trace s) = exporter_calls (trace s0)));
    [|done].
  intros entry t _ [Het Hxt].
  destruct (construct_chain_exporter options (selected_priceFeed config options) entry t)
    as [-> ->]. done.
Qed.

(** Whether the constructor returns or throws, every
    [new ChainWalletManager] it made was for an entry of the
    configuration with a valid chain name and received that entry's
    wallets and a configuration naming that chain; in it
    [failOnInvalidTokens] is false only when the options say false, and
    the network is the entry's own unless that is absent or empty. *)
Theorem every_manager_is_built_from_its_own_entry config options :
  let this := (new_WalletManager config options).2 in
  Forall (fun a =>
    match a with
    | NewChainWalletManager cfg ws _ =>
        ∃ chainCfg, (cm_chainName cfg, chainCfg) ∈ config ∧
          isChain (cm_chainName cfg) = true ∧
          ws = wallets chainCfg ∧
          cfg = chainManagerConfig_of options (cm_chainName cfg) chainCfg ∧
          (cm_failOnInvalidTokens cfg = false ↔
             options ≫= failOnInvalidTokens = Some false) ∧
          (∀ n, network chainCfg = Some n → n ≠ "" → cm_network cfg = n)
    | _ => True
    end) (trace this).
Proof.
  cbv zeta.
  assert (Hcfg : ∀ c chainCfg,
    (cm_failOnInvalidTokens (chainManagerConfig_of options c chainCfg) = false ↔
       options ≫= failOnInvalidTokens = Some false) ∧
    (∀ n, network chainCfg = Some n → n ≠ "" →
          cm_network (chainManagerConfig_of options c chainCfg) = n)).
  { intros c chainCfg. split.
    - cbn. unfold options_failOnInvalidTokens.
      destruct (options ≫= failOnInvalidTokens) as [[]|]; cbn; split; congruence.
    - intros n Hn Hne. cbn. unfold network_of, or_string. rewrite Hn.
      by destruct (decide (n = "")). }
  unfold new_WalletManager, constructor. unfold bind at 1.
  destruct (build_exporter_exact options) as (logged & -> & _ & _ & Hb & _ & _).
  unfold bind at 1. rewrite build_priceFeed_state.
  apply for_of_keeps.
  - intros [c chainCfg] t Hentry Ht. destruct (isChain c) eqn:Hc.
    + rewrite construct_chain_valid by done. cbv zeta.
      destruct (cwm_new _ (wallets chainCfg) _) as [m0|e];
        cbn [fst snd trace set_managers set_trace];
        apply Forall_app; (split; [done|]);
        repeat constructor; exists chainCfg; split_and!; try done; apply Hcfg.
    + rewrite construct_chain_invalid by done.
      destruct (options_failOnInvalidChain options); [done|].
      cbn [fst snd trace set_trace]. apply Forall_app. split; [done|].
      by repeat constructor.
  - cbn [trace set_trace set_exporter]. apply Forall_app. split.
    + clear -Hb. induction logged as [|a logged IH]; [constructor|].
      destruct a; (constructor; [done|by apply IH]).
    + destruct (selected_priceFeed config options); by repeat constructor.
Qed.

End ConstructionOutcome.

Section Events.
Import WalletManager.
Context `{Imports}.
Implicit Types (this s : WalletManager) (c chainName : string).

(** The listener the constructor registered for an event. *)
Lemma wiring_filter c network ev :
  filter (fun nl : string * Listener => nl.1 = event_name ev) (wiring c network) =
  [(event_name ev,
    match ev with
    | ev_error _ => on_error c
    | ev_balances _ _ => on_balances c network
    | ev_rebalance_started _ _ => on_rebalance_started
    | ev_rebalance_finished _ _ => on_rebalance_finished c
    | ev_rebalance_error _ _ _ => on_rebalance_error c
    | ev_active_wallets_count _ _ _ => on_active_wallets_count
    | ev_wallets_lock_period _ _ _ _ => on_wallets_lock_period
    end)].
Proof. by destruct ev. Qed.

(** What the listeners of the constructor do with each of the seven
    events of a chain manager.  Only 'balances' and 'error' go on the
    orchestrator's bus; the others stay inside: they return, and reach
    the exporter, when there is one, and nobody else.  'balances',
    'rebalance-finished' and 'rebalance-error' are reported under the
    manager's own chain name, 'active-wallets-count' and
    'wallets-lock-period' under the chain name and network of the
    event's payload; 'rebalance-started' and 'error' are only logged.
    No event touches the managers or the subscriptions. *)
Theorem events_reach_the_exporter c network m ev s :
  obj_get c (managers s) = Some m →
  listeners m = wiring c network →
  let after := (manager_emits c ev s).2 in
  exporter_calls (trace after) =
    exporter_calls (trace s) ++
    match exporter s with
    | None => []
    | Some _ =>
        match ev with
        | ev_error _ => []
        | ev_balances balances _ => [updateBalances c network balances]
        | ev_rebalance_started _ _ => []
        | ev_rebalance_finished strategy receipts =>
            [updateRebalanceSuccess c strategy receipts]
        | ev_rebalance_error _ _ strategy => [updateRebalanceFailure c strategy]
        | ev_active_wallets_count c' network' count =>
            [updateActiveWallets c' network' count]
        | ev_wallets_lock_period c' network' walletAddress lockTime =>
            [updateWalletsLockPeriod c' network' walletAddress lockTime]
        end
    end ∧
  (event_name ev ≠ "error" → (manager_emits c ev s).1 = Return tt) ∧
  (event_name ev ≠ "error" → event_name ev ≠ "balances" →
     emitted (trace after) = emitted (trace s)) ∧
  managers after = managers s ∧ emitter after = emitter s ∧ exporter after = exporter s.
Proof.
  intros Hm Hl after. subst after.
  rewrite (manager_emits_present _ _ _ _ Hm), Hl, wiring_filter, for_of_cons.
  destruct ev; cbn [snd listener_body event_name];
    unfold bind, log, exporter_call, emit, bind, record, modify, gets, throw, ret, id;
    cbn [fst snd trace exporter emitter set_trace];
    destruct (exporter s) eqn:Hex;
    repeat match goal with
           | |- context [bool_decide ?P] => destruct (bool_decide P)
           end;
    cbn [fst snd trace exporter emitter managers set_trace for_of ret];
    rewrite ?exporter_calls_app, ?emitted_app; cbn; rewrite ?app_nil_r, <- ?app_assoc;
    split_and!; done.
Qed.

(** An 'error' event of a chain manager comes back as an exception,
    the error itself, out of the manager's [emit] as long as nobody has
    subscribed to 'error' on the orchestrator; once somebody has, with
    [on], it returns.  A subscription to another event does not help. *)
Theorem error_event_is_thrown_without_a_subscriber c network m e s :
  obj_get c (managers s) = Some m →
  listeners m = wiring c network →
  ((manager_emits c (ev_error e) s).1 = Throw e ↔ "error" ∉ emitter s) ∧
  ((manager_emits c (ev_error e) s).1 = Return tt ↔ "error" ∈ emitter s) ∧
  (manager_emits c (ev_error e) (on "error" s).2).1 = Return tt ∧
  (∀ event, event ≠ "error" →
     (manager_emits c (ev_error e) (on event s).2).1 = (manager_emits c (ev_error e) s).1).
Proof.
  intros Hm Hl.
  assert (Hon : ∀ event, (manager_emits c (ev_error e) (on event s).2).1 =
                         if bool_decide ("error" ∈ emitter s ++ [event])
                         then Return tt else Throw e).
  { intros event.
    by destruct (manager_emits_error c network m e (on event s).2 Hm Hl) as [-> _]. }
  destruct (manager_emits_error c network m e s Hm Hl) as [-> _].
  split_and!.
  - case_bool_decide; split; done.
  - case_bool_decide; split; done.
  - rewrite Hon, bool_decide_eq_true_2; [done|]. apply elem_of_app. right. left.
  - intros event Hne. rewrite Hon.
    rewrite (bool_decide_ext ("error" ∈ emitter s ++ [event]) ("error" ∈ emitter s)); [done|].
    rewrite elem_of_app, list_elem_of_singleton. split; [|by left].
    intros [?|?]; [done|]. congruence.
Qed.

End Events.

(** * More of the exporter *)

Section ErrorCounters.
Import MultiWalletExporter.
Context `{PromClient}.

(** The names that pass the [in] test never become keys of
    [errorCounters]. *)
Lemma on_error_keeps_property_names_out options chainName this :
  (∀ k, k ∈ obj_keys (errorCounters this) → k ∉ Map_properties) →
  ∀ k, k ∈ obj_keys (errorCounters (on_error options chainName this).2) →
       k ∉ Map_properties.
Proof.
  intros Hkeys k. destruct (decide (chainName ∈ Map_properties)) as [Hin|Hout].
  - unfold on_error, bind, gets, id; cbn [fst snd].
    unfold in_Map. rewrite bool_decide_eq_true_2 by done. cbn [negb ret fst snd].
    destruct (Map_get chainName (errorCounters this)); cbn; apply Hkeys.
  - rewrite on_error_builds_a_counter_each_time by done.
    destruct (createExporterErrorCounter _ (registry this)) as [[counter|e] reg];
      cbn [snd errorCounters]; [|apply Hkeys].
    unfold Map_set. rewrite obj_keys_set_elem_of. intros [->|Hk]; [done|by apply Hkeys].
Qed.

(** Whatever 'error' events a new exporter has received, an event whose
    chain name is the name of a property of [Map] objects (["size"],
    ["get"], ["constructor"], ...) finds the guard satisfied, builds no
    counter, and fails on [counter.inc()] with a [TypeError]; the
    exporter is left as it was. *)
Theorem property_names_never_get_a_counter options chains reg chainName :
  chainName ∈ Map_properties →
  let this := (deliver_errors options chains (new_exporter reg)).2 in
  on_error options chainName this =
  (Throw (TypeError "Cannot read properties of undefined (reading 'inc')"), this).
Proof.
  intros Hin this.
  assert (Hkeys : ∀ k, k ∈ obj_keys (errorCounters this) → k ∉ Map_properties).
  { subst this. unfold deliver_errors.
    apply (for_of_keeps
             (fun t => ∀ k, k ∈ obj_keys (errorCounters t) → k ∉ Map_properties)).
    - intros c t _ Ht. by apply on_error_keeps_property_names_out.
    - by intros k ?%elem_of_nil. }
  assert (Hnone : Map_get chainName (errorCounters this) = None).
  { apply obj_get_None. intros Hk. by apply (Hkeys _ Hk). }
  unfold on_error, bind, gets, id; cbn [fst snd].
  unfold in_Map. rewrite bool_decide_eq_true_2 by done. cbn [negb ret fst snd].
  by rewrite Hnone.
Qed.

End ErrorCounters.

Section ErrorCountersRuns.
Import MultiWalletExporter.

(** The counter an 'error' event of [chainName] leaves in an accepting
    registry. *)
Lemma on_error_keeping options chainName (this : MultiWalletExporter (H := keeping)) :
  chainName ∉ Map_properties →
  on_error (H := keeping) options chainName this =
  (Return tt,
   @Build_MultiWalletExporter keeping
     (registry this ++
      [ {| counter_name := chainName +:+ "_" +:+ or_string (options ≫= errorsName) "errors";
           counter_value := 1 |} ])
     (Map_set chainName (length (registry this : list CounterObject))
        (errorCounters this))).
Proof.
  intros Hout. rewrite on_error_builds_a_counter_each_time by done.
  cbn [createExporterErrorCounter counter_inc keeping]. f_equal. f_equal.
  rewrite <- (Nat.add_0_r (length _)). by rewrite alter_app_r.
Qed.

(** On a registry that accepts every counter, every 'error' event for
    an ordinary chain name leaves one more counter in the registry, at
    1: there are as many counters as events, not as chains, while
    [errorCounters] has one entry per chain. *)
Theorem every_error_event_registers_a_new_counter options chains
    (this : MultiWalletExporter (H := keeping)) :
  Forall (fun c => c ∉ Map_properties) chains →
  let delivered := deliver_errors (H := keeping) options chains this in
  delivered.1 = Return tt ∧
  registry delivered.2 =
    (registry this : list CounterObject) ++
    map (fun c =>
           {| counter_name := c +:+ "_" +:+ or_string (options ≫= errorsName) "errors";
              counter_value := 1 |}) chains ∧
  (∀ c, c ∈ obj_keys (errorCounters delivered.2) ↔
        c ∈ obj_keys (errorCounters this) ∨ c ∈ chains) ∧
  (NoDup (obj_keys (errorCounters this)) →
   NoDup (obj_keys (errorCounters delivered.2))).
Proof.
  intros Hall. revert this. unfold deliver_errors.
  induction Hall as [|c chains Hc Hall IH]; intros this; cbv zeta.
  { cbn. rewrite app_nil_r. split_and!; [done|done| |done].
    intros c. split; [by left|]. by intros [?|?%elem_of_nil]. }
  rewrite for_of_cons, on_error_keeping by done.
  destruct (IH (@Build_MultiWalletExporter keeping
                  (registry this ++
                   [ {| counter_name :=
                          c +:+ "_" +:+ or_string (options ≫= errorsName) "errors";
                        counter_value := 1 |} ])
                  (Map_set c (length (registry this : list CounterObject))
                     (errorCounters this))))
    as (Hout & Hreg & Hkeys & Hnd).
  cbn [registry errorCounters] in *.
  split_and!.
  - done.
  - rewrite Hreg. cbn [map]. by rewrite <- app_assoc.
  - intros k. rewrite Hkeys. unfold Map_set. rewrite obj_keys_set_elem_of, elem_of_cons.
    split; [intros [[->|?]|?]|intros [?|[->|?]]]; auto.
  - intros Hnd0. apply Hnd. unfold Map_set. by apply obj_keys_set_NoDup.
Qed.

End ErrorCountersRuns.

Section OptionsCheck.
Import MultiWalletExporter.

(** [validatePrometheusOptions] never answers false: it returns true or
    throws.  It lets through every falsy value and every object whose
    [gaugeName] is falsy or a string, and nothing else; so the name the
    constructor computes for [createExporterGauge] is always a string
    and never empty.  [lastUpdateName] is not looked at: whatever truthy
    value an object carries there is the name computed for
    [createExporterLastUpdate]. *)
Theorem validatePrometheusOptions_checks_the_gauge_name_only prometheus :
  validatePrometheusOptions prometheus ≠ Return false ∧
  (validatePrometheusOptions prometheus = Return true ↔
     truthy prometheus = false ∨
     ∃ props, prometheus = js_object props ∧
              (truthy (js_get "gaugeName" prometheus) = false ∨
               ∃ name, js_get "gaugeName" prometheus = js_string name)) ∧
  (∀ gauge lastUpdate, metric_names prometheus = Return (gauge, lastUpdate) →
     ∃ name, gauge = js_string name ∧ name ≠ "") ∧
  (∀ props v, prometheus = js_object props →
     obj_get "gaugeName" props = None →
     obj_get "lastUpdateName" props = Some v → truthy v = true →
     metric_names prometheus = Return (js_string "wallet_monitor_balance", v)).
Proof.
  split_and!.
  - unfold validatePrometheusOptions.
    repeat match goal with |- context [if ?b then _ else _] => destruct b end; done.
  - unfold validatePrometheusOptions. destruct prometheus as [| |[]|n| |s| |props];
      cbn [truthy typeof negb]; try (split; [intros _; by left|done]).
    + split; [done|]. intros [[=]|(props & [=] & _)].
    + destruct (n =? 0)%Z; cbn [negb]; [split; [intros _; by left|done]|].
      split; [done|]. intros [[=]|(props & [=] & _)].
    + destruct (bool_decide (s = "")); cbn [negb]; [split; [intros _; by left|done]|].
      split; [done|]. intros [[=]|(props & [=] & _)].
    + split; [done|]. intros [[=]|(props & [=] & _)].
    + cbn [bool_decide negb]. rewrite bool_decide_eq_true_2 by done. cbn [negb].
      destruct (js_get "gaugeName" (js_object props)) as [| |[]|n| |s| |gprops] eqn:Hg;
        cbn [truthy typeof negb andb];
        try (split; [intros _; right; exists props; split; [done|by left]|done]).
      * split; [done|]. intros [[=]|(props' & _ & [[=]|[name [=]]])].
      * destruct (n =? 0)%Z eqn:Hn; cbn [negb andb].
        -- split; [intros _; right; exists props; split; [done|by left]|done].
        -- rewrite bool_decide_eq_false_2 by done. cbn [negb].
           split; [done|]. intros [[=]|(props' & _ & [[=]|[name [=]]])].
      * rewrite (bool_decide_eq_true_2 ("string" = "string")) by done. cbn [negb]. rewrite andb_false_r.
        split; [|done]. intros _. right. exists props. split; [done|]. right. by exists s.
      * rewrite bool_decide_eq_false_2 by done. cbn [negb].
        split; [done|]. intros [[=]|(props' & _ & [[=]|[name [=]]])].
      * rewrite bool_decide_eq_false_2 by done. cbn [negb].
        split; [done|]. intros [[=]|(props' & _ & [[=]|[name [=]]])].
  - intros gauge lastUpdate. unfold metric_names, validatePrometheusOptions, js_or.
    destruct (truthy prometheus) eqn:Ht; cbn [negb].
    + destruct (bool_decide (typeof prometheus = "object")); cbn [negb]; [|done].
      destruct (js_get "gaugeName" prometheus) as [| |[]|n| |s| |gprops];
        cbn [truthy typeof negb andb];
        try (intros [= <- _]; by eexists);
        try (rewrite bool_decide_eq_false_2 by done; done).
      * destruct (n =? 0)%Z; cbn [negb andb]; [intros [= <- _]; by eexists|].
        rewrite bool_decide_eq_false_2 by done. done.
      * rewrite (bool_decide_eq_true_2 ("string" = "string")) by done. cbn [negb].
        rewrite andb_false_r.
        case_bool_decide as Hs; cbn [negb]; intros [= <- _]; by eexists.
    + destruct prometheus as [| |[]|n| |s| |props]; try discriminate Ht;
        cbn [js_get truthy]; intros [= <- _]; by eexists.
  - intros props v -> Hg Hl Hv. unfold metric_names, validatePrometheusOptions, js_or.
    cbn [js_get]. rewrite Hg, Hl. unfold default, id. cbn [from_option]. rewrite Hv.
    cbn [truthy typeof negb andb]. by rewrite bool_decide_eq_true_2.
Qed.

End OptionsCheck.

(** * Runs on the simulated fleet *)

Section FleetRuns.
Import WalletManager Simulation.

Lemma fleet_keys_NoDup : NoDup (obj_keys (managers fleet)).
Proof. apply (bool_decide_unpack (NoDup _)). vm_compute. exact I. Qed.

Lemma acquireLock_witness :
  is_Some (obj_get "ethereum" (managers fleet)) ∧
  (acquireLock "ethereum" None fleet).1 = Return wallet_0xA.
Proof.
  split; [eexists; vm_compute; reflexivity|].
  destruct (acquireLock_counts_the_outcome (H := simulated all_up) fleet "ethereum" None
              (started_manager "ethereum" "mainnet" "0xA"))
    as (Hout & _).
  - vm_compute; reflexivity.
  - rewrite Hout. vm_compute; reflexivity.
Defined.

Lemma withWallet_witness :
  acquireLock "ethereum" None fleet
    = (Return wallet_0xA, (acquireLock "ethereum" None fleet).2) ∧
  (withWallet "ethereum" failing_executor None fleet).1
    = Throw (MkExn "X" "executor failed") ∧
  obj_get "ethereum" (managers (withWallet "ethereum" failing_executor None fleet).2)
    = Some (started_manager "ethereum" "mainnet" "0xA").
Proof.
  split; [vm_compute; reflexivity|].
  destruct (withWallet_releases_on_every_exit (H := simulated all_up)
              fleet "ethereum" failing_executor None wallet_0xA
              (acquireLock "ethereum" None fleet).2 held_manager)
    as (_ & Hout & Hmanagers & _).
  - vm_compute; reflexivity.
  - vm_compute; reflexivity.
  - split; [rewrite Hout|rewrite Hmanagers]; vm_compute; reflexivity.
Defined.

(** C1 as the claim has it fails for this executor: it gives the
    wallet back itself and then throws [X]; the release of [withWallet]
    then fails, and the caller gets [NotHeld] where the claim promises
    [X]. *)
Lemma withWallet_failed_release_replaces_the_exception :
  (acquireLock "ethereum" None fleet).1 = Return wallet_0xA ∧
  (self_releasing_executor wallet_0xA (acquireLock "ethereum" None fleet).2).1
    = Throw (MkExn "X" "executor failed") ∧
  (withWallet "ethereum" self_releasing_executor None fleet).1
    = Throw (MkExn "NotHeld" "0xA").
Proof. vm_compute. done. Qed.

Lemma other_managers_witness :
  "solana" ≠ "ethereum" ∧
  obj_get "solana" (managers (acquireLock "ethereum" None fleet).2) =
  obj_get "solana" (managers fleet).
Proof.
  split; [discriminate|].
  refine (proj1 (proj1 (single_chain_calls_leave_other_managers (H := simulated all_up)
                          fleet "ethereum" "solana" None "0xA" _))).
  discriminate.
Defined.

Lemma withWallet_without_a_lock_witness :
  (acquireLock "sui" None fleet).1 = Throw (Error "No wallets configured for chain: sui") ∧
  withWallet "sui" failing_executor None fleet =
  (Throw (Error "No wallets configured for chain: sui"), (acquireLock "sui" None fleet).2).
Proof.
  split; [vm_compute; reflexivity|].
  refine (proj1 (withWallet_without_a_lock (H := simulated all_up)
                   fleet "sui" failing_executor None _ _)).
  vm_compute; reflexivity.
Defined.

Lemma pullBalances_witness :
  NoDup (obj_keys (managers fleet)) ∧
  ∃ result, (pullBalances fleet).1 = Return result ∧
            ∀ c, c ∈ obj_keys result ↔ c ∈ obj_keys (managers fleet).
Proof.
  split; [apply (bool_decide_unpack (NoDup _)); vm_compute; exact I|].
  destruct (pullBalances_refreshes_every_chain (H := simulated all_up) fleet) as [Hall _].
  { apply (bool_decide_unpack (NoDup _)). vm_compute. exact I. }
  destruct Hall as (result & Hrun & Hkeys & _).
  { intros c m Hm. eexists. reflexivity. }
  exists result. split; assumption.
Defined.

Lemma getChainBalances_witness :
  NoDup (obj_keys (managers fleet)) ∧
  ∃ result, (getAllBalances fleet).1 = Return result ∧
            (getChainBalances "solana" fleet).1 =
            match obj_get "solana" result with
            | Some balances => Return balances
            | None => Throw (Error ("No wallets configured for chain: " +:+ "solana"))
            end.
Proof.
  split; [apply (bool_decide_unpack (NoDup _)); vm_compute; exact I|].
  destruct (getChainBalances_is_the_entry_of_getAllBalances (H := simulated all_up) fleet)
    as (result & Hrun & Hentry).
  { apply (bool_decide_unpack (NoDup _)). vm_compute. exact I. }
  exists result. split; [assumption|apply Hentry].
Defined.

Lemma stop_witness :
  NoDup (obj_keys (managers fleet)) ∧ (stop fleet).1 = Return tt.
Proof.
  split; [apply (bool_decide_unpack (NoDup _)); vm_compute; exact I|].
  refine (proj1 (stop_stops_every_manager (H := simulated all_up) fleet _)).
  apply (bool_decide_unpack (NoDup _)). vm_compute. exact I.
Defined.

Lemma empty_fleet_witness :
  managers (fresh (H := simulated all_up)) = [] ∧
  (getAllBalances (H := simulated all_up) fresh).1 = Return [].
Proof.
  split; [reflexivity|].
  refine (proj1 (fanouts_of_an_empty_fleet (H := simulated all_up) fresh _)).
  reflexivity.
Defined.

Lemma first_failing_entry_witness :
  entry_error (H := simulated all_up) (Some (plain_options true)) None
    ("not-a-chain", one_wallet "0xB") = Some (Error "Invalid chain name: not-a-chain") ∧
  (new_WalletManager (H := simulated all_up) with_unknown_chain
     (Some (plain_options true))).1 = Throw (Error "Invalid chain name: not-a-chain").
Proof.
  split; [vm_compute; reflexivity|].
  refine (proj1 (constructor_stops_at_the_first_failing_entry (H := simulated all_up)
                   with_unknown_chain (Some (plain_options true))
                   [("ethereum", one_wallet "0xA")] ("not-a-chain", one_wallet "0xB") []
                   (Error "Invalid chain name: not-a-chain") _ _ _)).
  - reflexivity.
  - intros b Hb. apply list_elem_of_singleton in Hb. subst b. vm_compute; reflexivity.
  - vm_compute; reflexivity.
Defined.

Lemma no_entry_fails_witness :
  Forall (fun b => entry_error (H := simulated all_up) None None b = None) two_chains ∧
  (new_WalletManager (H := simulated all_up) two_chains None).1 = Return tt.
Proof.
  assert (Hall : Forall (fun b => entry_error (H := simulated all_up) None None b = None)
                   two_chains)
    by (repeat constructor).
  split; [exact Hall|].
  refine (proj1 (constructor_returns_when_no_entry_fails (H := simulated all_up)
                   two_chains None _)).
  intros b Hb. exact (proj1 (Forall_forall _ _) Hall b Hb).
Defined.

Lemma events_witness :
  is_Some (obj_get "solana" (managers fleet_with_metrics)) ∧
  exporter_calls
    (trace (manager_emits "solana" (ev_rebalance_error (Error "out of gas")
                                      {| sourceAddress := "So1"; targetAddress := "So2";
                                         amount := 1; token := "SOL" |} "pourOver")
              fleet_with_metrics).2) =
  [startMetricsServer; updateRebalanceFailure "solana" "pourOver"].
Proof.
  split; [eexists; vm_compute; reflexivity|].
  destruct (events_reach_the_exporter (H := simulated all_up) "solana" "mainnet-beta"
              (started_manager "solana" "mainnet-beta" "So1")
              (ev_rebalance_error (Error "out of gas")
                 {| sourceAddress := "So1"; targetAddress := "So2";
                    amount := 1; token := "SOL" |} "pourOver")
              fleet_with_metrics) as (Hcalls & _).
  - vm_compute; reflexivity.
  - reflexivity.
  - rewrite Hcalls. vm_compute; reflexivity.
Defined.

Lemma error_event_witness :
  is_Some (obj_get "solana" (managers fleet)) ∧
  (manager_emits "solana" (ev_error (Error "connection refused")) fleet).1 =
    Throw (Error "connection refused") ∧
  (manager_emits "solana" (ev_error (Error "connection refused")) (on "error" fleet).2).1 =
    Return tt.
Proof.
  split; [eexists; vm_compute; reflexivity|].
  destruct (error_event_is_thrown_without_a_subscriber (H := simulated all_up)
              "solana" "mainnet-beta"
              (started_manager "solana" "mainnet-beta" "So1")
              (Error "connection refused") fleet) as (Hthrow & _ & Hsub & _).
  - vm_compute; reflexivity.
  - reflexivity.
  - split; [|exact Hsub]. apply Hthrow. vm_compute. intros Hin.
    apply elem_of_nil in Hin. exact Hin.
Defined.

End FleetRuns.

Section CounterRuns.
Import MultiWalletExporter.

Lemma property_name_witness :
  "size" ∈ Map_properties ∧
  (on_error (H := keeping) None "size"
     (deliver_errors (H := keeping) None ["ethereum"] (new_exporter (H := keeping) [])).2).1 =
  Throw (TypeError "Cannot read properties of undefined (reading 'inc')").
Proof.
  assert (Hin : "size" ∈ Map_properties)
    by (apply (bool_decide_unpack (_ ∈ _)); vm_compute; exact I).
  split; [exact Hin|].
  rewrite (property_names_never_get_a_counter (H := keeping) None ["ethereum"] [] "size" Hin).
  reflexivity.
Defined.

Lemma error_events_witness :
  Forall (fun c => c ∉ Map_properties) ["ethereum"; "ethereum"; "solana"] ∧
  length (registry
            (deliver_errors (H := keeping) None ["ethereum"; "ethereum"; "solana"]
               (new_exporter (H := keeping) [])).2 : list CounterObject) = 3.
Proof.
  assert (Hall : Forall (fun c => c ∉ Map_properties) ["ethereum"; "ethereum"; "solana"])
    by (repeat constructor; apply (bool_decide_unpack (_ ∉ _)); vm_compute; exact I).
  split; [exact Hall|].
  destruct (every_error_event_registers_a_new_counter None
              ["ethereum"; "ethereum"; "solana"] (new_exporter (H := keeping) []) Hall)
    as (_ & Hreg & _).
  rewrite Hreg. reflexivity.
Defined.

End CounterRuns.
